(** * UltraDashboard.jsx: CSV ingestion and month ordering

    A shallow embedding of the two pure helpers of [src/UltraDashboard.jsx],
    [parseCsvToRaces] (lines 176-279) and [sortByMonth] (lines 57-86), with
    the ECMAScript built-ins they call.

    JavaScript strings are sequences of UTF-16 code units; they are modelled
    as [list N].  JavaScript numbers that occur here are array indices, month
    ranks, [Number.MAX_SAFE_INTEGER] and millisecond time stamps: all integers
    far below 2^53, on which double arithmetic is exact, so they are modelled
    as [Z]. *)

From Stdlib Require Import ZArith NArith Ascii String List Sorted Permutation.
From stdpp Require Import base tactics option numbers list gmap.

(** ** ECMAScript built-ins *)

Module JS.

Definition codeUnit := N.
Definition jsstring := list N.

(** An ASCII literal of the source as a sequence of code units. *)
Definition js (s : string) : jsstring :=
  List.map N_of_ascii (list_ascii_of_string s).

(** ECMA-262 WhiteSpace and LineTerminator code points (all in the BMP, so
    one code unit each): the set [String.prototype.trim] and [StringToNumber]
    strip. *)
Definition isWhiteSpace (c : N) : bool :=
  ((c =? 9) || (c =? 10) || (c =? 11) || (c =? 12) || (c =? 13) ||
   (c =? 32) || (c =? 160) || (c =? 5760) ||
   ((8192 <=? c) && (c <=? 8202)) ||
   (c =? 8232) || (c =? 8233) || (c =? 8239) || (c =? 8287) ||
   (c =? 12288) || (c =? 65279))%N.

Fixpoint trimStart (s : jsstring) : jsstring :=
  match s with
  | [] => []
  | c :: s' => if isWhiteSpace c then trimStart s' else s
  end.

Definition trimEnd (s : jsstring) : jsstring :=
  rev (trimStart (rev s)).

(** [s.trim()] *)
Definition trim (s : jsstring) : jsstring := trimEnd (trimStart s).

(** Truthiness of a string: [""] is falsy, every other string truthy. *)
Definition truthy (s : jsstring) : bool :=
  match s with [] => false | _ :: _ => true end.

(** [s || d] for a string [s]. *)
Definition orElse (s d : jsstring) : jsstring :=
  if truthy s then s else d.

(** [s.split(sep)] for a separator of one code unit: never the empty
    array; [n] separators give [n + 1] pieces. *)
Fixpoint split (sep : N) (s : jsstring) : list jsstring :=
  match s with
  | [] => [[]]
  | c :: s' =>
      if (c =? sep)%N then [] :: split sep s'
      else match split sep s' with
           | [] => [[c]]
           | w :: ws => (c :: w) :: ws
           end
  end.

(** [s.replace(/\r$/, "")]: without the [m] flag [$] matches at the end of
    the string only, so at most the last code unit goes. *)
Fixpoint removeTrailingCR (s : jsstring) : jsstring :=
  match s with
  | [] => []
  | [c] => if (c =? 13)%N then [] else [c]
  | c :: s' => c :: removeTrailingCR s'
  end.

(** [arr.indexOf(key)]: the first position holding [key], else [-1]. *)
Fixpoint indexOfFrom (i : Z) (key : jsstring) (arr : list jsstring) : Z :=
  match arr with
  | [] => -1
  | x :: arr' =>
      if bool_decide (x = key) then i else indexOfFrom (i + 1) key arr'
  end.

Definition indexOf (key : jsstring) (arr : list jsstring) : Z :=
  indexOfFrom 0 key arr.

(** [arr[i]] for a number [i]: [undefined] (here [None]) unless [i] is an
    index of the array. *)
Definition getIndex {A} (arr : list A) (i : Z) : option A :=
  if (i <? 0)%Z then None else arr !! Z.to_nat i.

(** *** [Number(s)] and [Number.isNaN]

    Only whether [Number(s)] is [NaN] is observed by the program.  By
    ECMA-262 [StringToNumber], that is the case exactly when [s], with white
    space stripped, is neither empty nor a [StrNumericLiteral]. *)

Definition isDecimalDigit (c : N) : bool := ((48 <=? c) && (c <=? 57))%N.
Definition isBinaryDigit (c : N) : bool := ((c =? 48) || (c =? 49))%N.
Definition isOctalDigit (c : N) : bool := ((48 <=? c) && (c <=? 55))%N.
Definition isHexDigit (c : N) : bool :=
  (isDecimalDigit c || ((65 <=? c) && (c <=? 70)) ||
   ((97 <=? c) && (c <=? 102)))%N.

Fixpoint dropDigits (s : jsstring) : jsstring :=
  match s with
  | [] => []
  | c :: s' => if isDecimalDigit c then dropDigits s' else s
  end.

(** [DecimalDigits] and nothing else. *)
Definition allDigits (p : N → bool) (s : jsstring) : bool :=
  truthy s && forallb p s.

(** [ExponentPart]opt followed by the end of the string. *)
Definition exponentPartOpt (s : jsstring) : bool :=
  match s with
  | [] => true
  | c :: s' =>
      ((c =? 101) || (c =? 69))%N &&
      match s' with
      | sg :: s'' =>
          if ((sg =? 43) || (sg =? 45))%N then allDigits isDecimalDigit s''
          else allDigits isDecimalDigit s'
      | [] => false
      end
  end.

(** [StrUnsignedDecimalLiteral]:
      Infinity
    | DecimalDigits . DecimalDigits? ExponentPart?
    | . DecimalDigits ExponentPart?
    | DecimalDigits ExponentPart? *)
Definition strUnsignedDecimalLiteral (s : jsstring) : bool :=
  if bool_decide (s = js "Infinity") then true
  else
    let r1 := dropDigits s in
    let hasInt := negb (length r1 =? length s)%nat in
    match r1 with
    | 46%N :: r2 =>
        let r3 := dropDigits r2 in
        let hasFrac := negb (length r3 =? length r2)%nat in
        (hasInt || hasFrac) && exponentPartOpt r3
    | _ => hasInt && exponentPartOpt r1
    end.

(** [StrDecimalLiteral]: an optional sign, then the unsigned literal. *)
Definition strDecimalLiteral (s : jsstring) : bool :=
  match s with
  | c :: s' =>
      if ((c =? 43) || (c =? 45))%N then strUnsignedDecimalLiteral s'
      else strUnsignedDecimalLiteral s
  | [] => false
  end.

(** [NonDecimalIntegerLiteral]: 0b, 0o, 0x (either case), then digits. *)
Definition nonDecimalIntegerLiteral (s : jsstring) : bool :=
  match s with
  | 48%N :: p :: ds =>
      if ((p =? 98) || (p =? 66))%N then allDigits isBinaryDigit ds
      else if ((p =? 111) || (p =? 79))%N then allDigits isOctalDigit ds
      else if ((p =? 120) || (p =? 88))%N then allDigits isHexDigit ds
      else false
  | _ => false
  end.

Definition strNumericLiteral (s : jsstring) : bool :=
  nonDecimalIntegerLiteral s || strDecimalLiteral s.

(** [Number.isNaN(Number(s))] *)
Definition numberIsNaN (s : jsstring) : bool :=
  let t := trim s in
  if truthy t then negb (strNumericLiteral t) else false.

(** *** [String.prototype.toLowerCase]

    On a string of ASCII code units the Unicode default case conversion
    maps A-Z to a-z and nothing else.  On other strings it needs the Unicode
    tables, which are not part of the program: [unicodeLower] stands for the
    conversion there, and every theorem holds whatever it is. *)

Definition isAscii (c : N) : bool := (c <? 128)%N.

Definition asciiLower (c : N) : N :=
  if ((65 <=? c) && (c <=? 90))%N then (c + 32)%N else c.

Definition toLowerCase (unicodeLower : jsstring → jsstring)
    (s : jsstring) : jsstring :=
  if forallb isAscii s then List.map asciiLower s else unicodeLower s.

(** *** [Array.prototype.sort]

    The comparator's number [v] puts [a] after [b] when [v > 0].  ECMA-262
    requires the sort to be stable and, for a consistent comparator, to
    return the sorted order, which makes the result unique: it is the result
    of this stable insertion sort. *)

Section Sort.
Context {A : Type} (comparator : A → A → Z).

Fixpoint insertSorted (x : A) (l : list A) : list A :=
  match l with
  | [] => [x]
  | y :: l' =>
      if (0 <? comparator x y)%Z then y :: insertSorted x l'
      else x :: l
  end.

Definition sort (l : list A) : list A := foldr insertSorted [] l.
End Sort.

(** [Number.MAX_SAFE_INTEGER], 2^53 - 1 *)
Definition MAX_SAFE_INTEGER : Z := 9007199254740991.

End JS.

Import JS.

(** ** The data model *)

(** A race object, with the fields the dashboard gives every race. *)
Record race := Race {
  id : Z;
  name : jsstring;
  month : jsstring;
  website : jsstring;
  registered : bool;
  finishTime : jsstring
}.

(** What a call can throw: [new Error(message)], or the [TypeError] of a
    method call on [undefined]. *)
Inductive exception :=
  | Error (message : jsstring)
  | TypeError.

Inductive completion (A : Type) :=
  | Return (a : A)
  | Throw (e : exception).
Arguments Return {A} a.
Arguments Throw {A} e.

(** The four variables [nameIdx], [monthIdx], [websiteIdx], [startIndex]
    of [parseCsvToRaces]; [None] is [undefined]. *)
Record ColumnMapping := Mapping {
  nameIdx : option Z;
  monthIdx : option Z;
  websiteIdx : option Z;
  startIndex : nat
}.

(** ** [parseCsvToRaces] (lines 176-279) *)

Definition nameCandidates : list jsstring :=
  [js "name"; js "race"; js "race name"; js "race_name"; js "race title";
   js "event"; js "event name"].

Definition monthCandidates : list jsstring :=
  [js "month"; js "race month"; js "month held"; js "month_of_race";
   js "race month held"].

Definition websiteCandidates : list jsstring :=
  [js "website"; js "url"; js "link"; js "race website"; js "race url"].

Definition schemaMessage : jsstring :=
  js ("CSV must provide race name and month columns. " ++
      "Example (no headers): index,race name,month,website").

(** [text.split("\n").map(line => line.replace(/\r$/, ""))
        .filter(line => line.trim().length > 0)] *)
Definition nonBlankLines (text : jsstring) : list jsstring :=
  List.filter (λ line, (0 <? length (trim line))%nat)
    (List.map removeTrailingCR (split 10 text)).

(** The callback of [firstLineCells.some(...)]. *)
Definition headerLike (cell : jsstring) : bool :=
  let trimmed := trim cell in
  if negb (truthy trimmed) then false else numberIsNaN trimmed.

Definition looksLikeHeader (firstLineCells : list jsstring) : bool :=
  existsb headerLike firstLineCells.

(** [candidates.map(key => headers.indexOf(key)).find(idx => idx !== -1)] *)
Definition findColumn (candidates headers : list jsstring) : option Z :=
  List.find (λ idx, negb (idx =? -1)%Z)
    (List.map (λ key, indexOf key headers) candidates).

(** [idx == null || idx === -1] *)
Definition missing (idx : option Z) : bool :=
  match idx with
  | None => true
  | Some i => (i =? -1)%Z
  end.

(** [cells[idx]], where [idx] may be [undefined]. *)
Definition cellAt (cells : list jsstring) (idx : option Z) : option jsstring :=
  match idx with
  | None => None
  | Some i => getIndex cells i
  end.

(** [v || ""] where [v] may be [undefined]. *)
Definition orEmpty (v : option jsstring) : jsstring :=
  match v with
  | None => []
  | Some s => orElse s []
  end.

Section Ingestion.
(** The case conversion outside ASCII, and the clock: [now i] is what
    [Date.now()] returns in the [i]-th call of the row callback. *)
Variable unicodeLower : jsstring → jsstring.
Variable now : nat → Z.

(** The [if (looksLikeHeader) { ... } else { ... }] of lines 200-249;
    [detected] is the value of [looksLikeHeader]. *)
Definition resolveColumns (detected : bool)
    (firstLineCells : list jsstring) : ColumnMapping :=
  if detected then
    let headers :=
      List.map (λ h, toLowerCase unicodeLower (trim h)) firstLineCells in
    {| nameIdx := findColumn nameCandidates headers;
       monthIdx := findColumn monthCandidates headers;
       websiteIdx := findColumn websiteCandidates headers;
       startIndex := 1 |}
  else
    {| nameIdx := Some 1%Z;
       monthIdx := Some 2%Z;
       websiteIdx := Some 3%Z;
       startIndex := 0 |}.

(** The callback of [lines.slice(startIndex).map((line, index) => ...)]. *)
Definition rowToRace (m : ColumnMapping) (index : nat)
    (line : jsstring) : race :=
  let cells := split 44 line in
  let name := trim (orEmpty (cellAt cells (nameIdx m))) in
  let month := trim (orEmpty (cellAt cells (monthIdx m))) in
  let website :=
    if negb (missing (websiteIdx m)) then
      match cellAt cells (websiteIdx m) with
      | Some c => if truthy c then trim c else []
      | None => []
      end
    else [] in
  {| id := (now index + Z.of_nat index)%Z;
     name := name;
     month := month;
     website := website;
     registered := false;
     finishTime := [] |}.

(** [parseCsvToRaces] with its header heuristic as the argument
    [detect]. *)
Definition parseCsvWith (detect : list jsstring → bool)
    (text : jsstring) : completion (list race) :=
  let lines := nonBlankLines text in
  if (length lines =? 0)%nat then Return []
  else
    match lines !! 0%nat with
    | None => Throw TypeError
    | Some line0 =>
        let firstLineCells := split 44 line0 in
        let m := resolveColumns (detect firstLineCells) firstLineCells in
        if missing (nameIdx m) || missing (monthIdx m) then
          Throw (Error schemaMessage)
        else
          let parsed :=
            imap (rowToRace m) (skipn (startIndex m) lines) in
          Return (List.filter
                    (λ race, truthy (name race) && truthy (month race))
                    parsed)
    end.

Definition parseCsvToRaces (text : jsstring) : completion (list race) :=
  parseCsvWith looksLikeHeader text.

(** The column mapping [parseCsvToRaces] works with on [text]; none when
    the early return of line 182 is taken. *)
Definition columnsOf (text : jsstring) : option ColumnMapping :=
  match nonBlankLines text with
  | [] => None
  | line0 :: _ =>
      let firstLineCells := split 44 line0 in
      Some (resolveColumns (looksLikeHeader firstLineCells) firstLineCells)
  end.
End Ingestion.

(** *** Instances for the examples

    A case conversion that leaves non-ASCII strings alone, a clock that
    stands still, and the three fields of a race the smoke tests of
    [runCsvParserSmokeTests] (lines 282-393) look at. *)

Definition noUnicode : jsstring → jsstring := λ s, s.
Definition frozenClock : nat → Z := λ _, 1700000000000%Z.

Definition newline : string := String (ascii_of_nat 10) EmptyString.

Definition summary (r : race) : jsstring * jsstring * jsstring :=
  (name r, month r, website r).

Definition summaries (c : completion (list race)) :
    completion (list (jsstring * jsstring * jsstring)) :=
  match c with
  | Return rs => Return (List.map summary rs)
  | Throw e => Throw e
  end.

(** ** [sortByMonth] (lines 57-86) *)

Definition monthOrder : list jsstring :=
  [js "January"; js "February"; js "March"; js "April"; js "May"; js "June";
   js "July"; js "August"; js "September"; js "October"; js "November";
   js "December"].

(** [monthOrder.indexOf((r.month || "").trim())], with [-1] replaced by
    [Number.MAX_SAFE_INTEGER]: the [aIndex] and [bIndex] of the comparator. *)
Definition monthIndex (r : race) : Z :=
  let m := trim (orElse (month r) []) in
  let i := indexOf m monthOrder in
  if (i =? -1)%Z then MAX_SAFE_INTEGER else i.

Section Ordering.
(** [a.localeCompare(b)]: a number, left to the implementation's collation;
    only its sign is used. *)
Variable localeCompare : jsstring → jsstring → Z.

(** The arrow function given to [sort]. *)
Definition compareRaces (a b : race) : Z :=
  let aIndex := monthIndex a in
  let bIndex := monthIndex b in
  if negb (aIndex =? bIndex)%Z then (aIndex - bIndex)%Z
  else localeCompare (orElse (name a) []) (orElse (name b) []).

(** [[...races].sort(compare)], as a function of the races in the array. *)
Definition sortByMonth (races : list race) : list race :=
  sort compareRaces races.

(** *** The same call on the heap

    Arrays and race objects live in one store and an array holds references,
    so that what the call does to the array it is given can be stated. *)

Inductive object :=
  | RaceObject (r : race)
  | ArrayObject (elements : list positive).

Definition raceAt (h : gmap positive object) (l : positive) : option race :=
  match h !! l with
  | Some (RaceObject r) => Some r
  | _ => None
  end.

(** [[...arr]]: a new array with the same references. *)
Definition spread (h : gmap positive object) (arr : positive) :
    option (gmap positive object * positive) :=
  match h !! arr with
  | Some (ArrayObject elements) =>
      let copy := fresh (dom h) in
      Some (<[copy := ArrayObject elements]> h, copy)
  | _ => None
  end.

(** [arr.sort(compare)]: the array object is updated in place and returned;
    the comparator only reads the objects it is given. *)
Definition sortInPlace (h : gmap positive object) (arr : positive) :
    option (gmap positive object * positive) :=
  match h !! arr with
  | Some (ArrayObject elements) =>
      match mapM (raceAt h) elements with
      | Some races =>
          let sorted :=
            sort (λ x y : positive * race, compareRaces (snd x) (snd y))
                 (zip elements races) in
          Some (<[arr := ArrayObject (List.map fst sorted)]> h, arr)
      | None => None
      end
  | _ => None
  end.

Definition sortByMonthRef (h : gmap positive object) (races : positive) :
    option (gmap positive object * positive) :=
  match spread h races with
  | Some (h1, copy) => sortInPlace h1 copy
  | None => None
  end.
End Ordering.

(** ** Vocabulary of the properties *)

(** The string parses as a number: [Number(s)] is not [NaN]. *)
Definition parsesAsNumber (s : jsstring) : Prop := numberIsNaN s = false.

(** The positional layout index,title,category,reference of a headerless
    file. *)
Definition positional : ColumnMapping :=
  {| nameIdx := Some 1%Z; monthIdx := Some 2%Z; websiteIdx := Some 3%Z;
     startIndex := 0 |}.

(** The trimmed cell of a line at a column; the empty string on a line
    that is too short. *)
Definition trimmedCell (line : jsstring) (idx : Z) : jsstring :=
  trim (nth (Z.to_nat idx) (split 44 line) []).

Definition referenceCell (line : jsstring) (idx : option Z) : jsstring :=
  match idx with
  | Some i => trimmedCell line i
  | None => []
  end.

(** [idx] is what resolving a field by its synonym list gives on the header
    names [headers]: the first position in the header row of the first
    synonym, in the order of the list, that occurs in the row at all; absent
    when no synonym occurs. *)
Definition firstMatch (synonyms headers : list jsstring)
    (idx : option Z) : Prop :=
  match idx with
  | Some i =>
      ∃ (k j : nat) (syn : jsstring),
        synonyms !! k = Some syn ∧
        (∀ k' syn', (k' < k)%nat → synonyms !! k' = Some syn' →
                    ¬ In syn' headers) ∧
        i = Z.of_nat j ∧
        headers !! j = Some syn ∧
        (∀ j', (j' < j)%nat → headers !! j' ≠ Some syn)
  | None => ∀ syn, In syn synonyms → ¬ In syn headers
  end.

(** The collation orders any two strings one way or the other, as ECMA-262
    requires of [localeCompare] (a consistent comparator on all strings). *)
Definition totalCollation (localeCompare : jsstring → jsstring → Z) : Prop :=
  ∀ a b, (localeCompare a b ≤ 0)%Z ∨ (localeCompare b a ≤ 0)%Z.

(** The trimmed month of the race is one of the twelve names of
    [monthOrder], letter case included. *)
Definition recognized (r : race) : Prop := In (trim (month r)) monthOrder.

(** [k] is the rank of the race: the position of its trimmed month in the
    twelve names of [monthOrder], January at 0 and December at 11, and
    [Number.MAX_SAFE_INTEGER] when the trimmed month is none of them. *)
Definition hasRank (r : race) (k : Z) : Prop :=
  (∃ n : nat, monthOrder !! n = Some (trim (month r)) ∧ k = Z.of_nat n) ∨
  (¬ In (trim (month r)) monthOrder ∧ k = MAX_SAFE_INTEGER).

(** A collation for examples: code units compared in order. *)
Fixpoint codeUnitCompare (a b : jsstring) : Z :=
  match a, b with
  | [], [] => 0
  | [], _ :: _ => -1
  | _ :: _, [] => 1
  | x :: a', y :: b' =>
      if (x <? y)%N then -1
      else if (y <? x)%N then 1
      else codeUnitCompare a' b'
  end.

Definition mkRace (n m : string) : race :=
  {| id := 0; name := js n; month := js m; website := [];
     registered := false; finishTime := [] |}.

(** A batch with two races of one month, names out of order, and two races
    whose month is not recognised. *)
Definition mixedBatch : list race :=
  [mkRace "Zed" "March"; mkRace "UTMB" "August"; mkRace "Alpha" " March ";
   mkRace "Crazy" "July"; mkRace "Beta" "Smarch"; mkRace "Able" "august"].

(** Two race objects and an array that refers to one of them twice. *)
Definition exampleHeap : gmap positive object :=
  <[1%positive := RaceObject (mkRace "UTMB" "August")]>
    (<[2%positive := RaceObject (mkRace "Black Mountain 100" "March")]>
       (<[3%positive := ArrayObject [1; 2; 1]%positive]> ∅)).

(** ** The dashboard component (lines 13-38 and 397-480)

    The state of [UltraDashboard] is the six [useState] cells.  A handler is
    run on the state of the render it was created in, and React applies its
    updater functions to that same state when one event is handled per
    render: a handler is modelled as a function from state to state. *)

Record dashboard := Dashboard {
  races : list race;
  newRaceName : jsstring;
  newRaceMonth : jsstring;
  newRaceWebsite : jsstring;
  newRaceRegistered : bool;
  newRaceFinishTime : jsstring
}.

(** [initialRaces]; the second name holds an en dash, U+2013. *)
Definition initialRaces : list race :=
  [ {| id := 1;
       name := js "Black Mountain 100";
       month := js "March";
       website := js "https://example.com/black-mountain-100";
       registered := true;
       finishTime := js "26:15:42" |};
    {| id := 2;
       name := js "UTMB " ++ [8211%N] ++ js " Chamonix";
       month := js "August";
       website := js "https://utmb.world";
       registered := false;
       finishTime := [] |};
    {| id := 3;
       name := js "Crazy Mountain 100";
       month := js "July";
       website := js "https://example.com/crazy-mountain-100";
       registered := false;
       finishTime := [] |} ].

Definition initialDashboard : dashboard :=
  {| races := initialRaces;
     newRaceName := [];
     newRaceMonth := [];
     newRaceWebsite := [];
     newRaceRegistered := false;
     newRaceFinishTime := [] |}.

(** [setRaces(next)]: the other cells keep their value. *)
Definition setRaces (next : list race) (s : dashboard) : dashboard :=
  {| races := next;
     newRaceName := newRaceName s;
     newRaceMonth := newRaceMonth s;
     newRaceWebsite := newRaceWebsite s;
     newRaceRegistered := newRaceRegistered s;
     newRaceFinishTime := newRaceFinishTime s |}.

(** The updater of [handleToggleRegistered]:
    [prev.map(race => race.id === id
                        ? { ...race, registered: !race.registered } : race)] *)
Definition toggleRegistered (rid : Z) (prev : list race) : list race :=
  List.map
    (λ race,
       if (id race =? rid)%Z then
         {| id := id race;
            name := name race;
            month := month race;
            website := website race;
            registered := negb (registered race);
            finishTime := finishTime race |}
       else race)
    prev.

(** The updater of [handleFinishTimeChange]. *)
Definition finishTimeChange (rid : Z) (value : jsstring)
    (prev : list race) : list race :=
  List.map
    (λ race,
       if (id race =? rid)%Z then
         {| id := id race;
            name := name race;
            month := month race;
            website := website race;
            registered := registered race;
            finishTime := value |}
       else race)
    prev.

(** The updater of [handleDeleteRace]:
    [prev.filter(race => race.id !== id)] *)
Definition deleteRace (rid : Z) (prev : list race) : list race :=
  List.filter (λ race, negb (id race =? rid)%Z) prev.

Definition handleToggleRegistered (rid : Z) (s : dashboard) : dashboard :=
  setRaces (toggleRegistered rid (races s)) s.

Definition handleFinishTimeChange (rid : Z) (value : jsstring)
    (s : dashboard) : dashboard :=
  setRaces (finishTimeChange rid value (races s)) s.

Definition handleDeleteRace (rid : Z) (s : dashboard) : dashboard :=
  setRaces (deleteRace rid (races s)) s.

(** The race object [handleAddRace] builds from the form; [t] is what
    [Date.now()] returns. *)
Definition raceOfForm (t : Z) (s : dashboard) : race :=
  {| id := t;
     name := trim (newRaceName s);
     month := trim (newRaceMonth s);
     website := trim (newRaceWebsite s);
     registered := newRaceRegistered s;
     finishTime := trim (newRaceFinishTime s) |}.

(** [handleAddRace]: nothing happens when the trimmed name or month is
    empty; otherwise the new race is put in front, the list is sorted and
    the form is cleared. *)
Definition handleAddRace (localeCompare : jsstring → jsstring → Z)
    (t : Z) (s : dashboard) : dashboard :=
  if negb (truthy (trim (newRaceName s))) ||
     negb (truthy (trim (newRaceMonth s))) then s
  else
    {| races := sortByMonth localeCompare (raceOfForm t s :: races s);
       newRaceName := [];
       newRaceMonth := [];
       newRaceWebsite := [];
       newRaceRegistered := false;
       newRaceFinishTime := [] |}.

Definition uploadFallbackMessage : jsstring :=
  js ("Unable to parse CSV. " ++
      "Please ensure it includes race name and month columns.").

(** [err.message]; the text of an engine's [TypeError] is its own. *)
Definition messageOf (typeErrorMessage : jsstring) (e : exception) : jsstring :=
  match e with
  | Error message => message
  | TypeError => typeErrorMessage
  end.

(** The [reader.onload] callback of [handleCsvUpload] (lines 461-477).
    [result] is [e.target?.result], [None] when it is not a string.  The
    second component is the text given to [alert], if any. *)
Definition csvLoaded (localeCompare : jsstring → jsstring → Z)
    (unicodeLower : jsstring → jsstring) (typeErrorMessage : jsstring)
    (now : nat → Z) (result : option jsstring) (s : dashboard) :
    dashboard * option jsstring :=
  match result with
  | None => (s, None)
  | Some text =>
      match parseCsvToRaces unicodeLower now text with
      | Return parsed =>
          if (length parsed =? 0)%nat then (s, None)
          else (setRaces (sortByMonth localeCompare parsed) s, None)
      | Throw err =>
          (s, Some (orElse (messageOf typeErrorMessage err)
                           uploadFallbackMessage))
      end
  end.

(** [races[0]?.name || "No races yet"] and [races[0]?.month || ""] *)
Definition nextRaceName (s : dashboard) : jsstring :=
  match races s !! 0%nat with
  | Some race => orElse (name race) (js "No races yet")
  | None => js "No races yet"
  end.

Definition nextRaceMonth (s : dashboard) : jsstring :=
  match races s !! 0%nat with
  | Some race => orElse (month race) []
  | None => []
  end.

(** [Boolean(race.website && race.website.trim())] of [RaceRow]. *)
Definition hasWebsite (r : race) : bool :=
  if truthy (website r) then truthy (trim (website r)) else false.

(** What the user can do, with the values the environment supplies: the
    form's [onChange] handlers store [e.target.value] or [e.target.checked];
    [AddRace] carries the reading of the clock, [CsvLoaded] the result of
    the file reader and the clock readings of the parse. *)
Inductive event :=
  | ToggleRegistered (rid : Z)
  | FinishTimeChange (rid : Z) (value : jsstring)
  | DeleteRace (rid : Z)
  | AddRace (t : Z)
  | CsvLoaded (now : nat → Z) (result : option jsstring)
  | SetNewRaceName (value : jsstring)
  | SetNewRaceMonth (value : jsstring)
  | SetNewRaceWebsite (value : jsstring)
  | SetNewRaceRegistered (checked : bool)
  | SetNewRaceFinishTime (value : jsstring).

Section Events.
Variable localeCompare : jsstring → jsstring → Z.
Variable unicodeLower : jsstring → jsstring.
Variable typeErrorMessage : jsstring.

Definition step (s : dashboard) (e : event) : dashboard :=
  match e with
  | ToggleRegistered rid => handleToggleRegistered rid s
  | FinishTimeChange rid value => handleFinishTimeChange rid value s
  | DeleteRace rid => handleDeleteRace rid s
  | AddRace t => handleAddRace localeCompare t s
  | CsvLoaded now result =>
      fst (csvLoaded localeCompare unicodeLower typeErrorMessage now result s)
  | SetNewRaceName value =>
      {| races := races s; newRaceName := value;
         newRaceMonth := newRaceMonth s; newRaceWebsite := newRaceWebsite s;
         newRaceRegistered := newRaceRegistered s;
         newRaceFinishTime := newRaceFinishTime s |}
  | SetNewRaceMonth value =>
      {| races := races s; newRaceName := newRaceName s;
         newRaceMonth := value; newRaceWebsite := newRaceWebsite s;
         newRaceRegistered := newRaceRegistered s;
         newRaceFinishTime := newRaceFinishTime s |}
  | SetNewRaceWebsite value =>
      {| races := races s; newRaceName := newRaceName s;
         newRaceMonth := newRaceMonth s; newRaceWebsite := value;
         newRaceRegistered := newRaceRegistered s;
         newRaceFinishTime := newRaceFinishTime s |}
  | SetNewRaceRegistered checked =>
      {| races := races s; newRaceName := newRaceName s;
         newRaceMonth := newRaceMonth s; newRaceWebsite := newRaceWebsite s;
         newRaceRegistered := checked;
         newRaceFinishTime := newRaceFinishTime s |}
  | SetNewRaceFinishTime value =>
      {| races := races s; newRaceName := newRaceName s;
         newRaceMonth := newRaceMonth s; newRaceWebsite := newRaceWebsite s;
         newRaceRegistered := newRaceRegistered s;
         newRaceFinishTime := value |}
  end.

(** The state after a sequence of events. *)
Definition run (events : list event) (s : dashboard) : dashboard :=
  fold_left step events s.
End Events.

(** *** Vocabulary of the properties of the component *)

(** The list is in the order [sortByMonth] aims at: neighbours in rank
    order, and in the order of the collation when of equal rank. *)
Definition inMonthOrder (localeCompare : jsstring → jsstring → Z)
    (l : list race) : Prop :=
  Sorted (λ a b, (monthIndex a ≤ monthIndex b)%Z ∧
                 (monthIndex a = monthIndex b →
                  (localeCompare (name a) (name b) ≤ 0)%Z)) l.

Definition transitiveCollation
    (localeCompare : jsstring → jsstring → Z) : Prop :=
  ∀ a b c, (localeCompare a b ≤ 0)%Z → (localeCompare b c ≤ 0)%Z →
           (localeCompare a c ≤ 0)%Z.

(** The name and the month are not empty and carry no white space at
    either end. *)
Definition wellFormed (r : race) : Prop :=
  name r ≠ [] ∧ month r ≠ [] ∧
  trim (name r) = name r ∧ trim (month r) = month r.

(** The clock does not run backwards. *)
Definition monotoneClock (now : nat → Z) : Prop :=
  ∀ i j, (i ≤ j)%nat → (now i ≤ now j)%Z.

(** The text with every line feed preceded by a carriage return. *)
Definition toCRLF (text : jsstring) : jsstring :=
  flat_map (λ c, if (c =? 10)%N then [13%N; 10%N] else [c]) text.

(** Two states of the form of the component. *)
Definition formFilled : dashboard :=
  {| races := initialRaces;
     newRaceName := js " Hellbender 100 ";
     newRaceMonth := js "April";
     newRaceWebsite := js "";
     newRaceRegistered := true;
     newRaceFinishTime := js " " |}.

Definition formBlankMonth : dashboard :=
  {| races := initialRaces;
     newRaceName := js "Hellbender 100";
     newRaceMonth := js "   ";
     newRaceWebsite := js "https://x";
     newRaceRegistered := true;
     newRaceFinishTime := [] |}.

(** ** Examples *)

Example split_commas :
  split 44 (js "a,,b,") = [js "a"; js ""; js "b"; js ""].
Proof. reflexivity. Qed.

Example trim_both : trim (js "  Month Held ") = js "Month Held".
Proof. reflexivity. Qed.

Example numeric_strings :
  List.map numberIsNaN
    [js "1"; js "-2.5e3"; js ".5"; js "5."; js "0x1F"; js "Infinity";
     js "."; js "1e"; js "0x"; js "12a"; js "Moggollon 100"; js "+-1"]
  = [false; false; false; false; false; false;
     true; true; true; true; true; true].
Proof. reflexivity. Qed.

Example smoke_headered :
  summaries (parseCsvToRaces noUnicode frozenClock
    (js ("race,month,website" ++ newline ++
         "UTMB,August,https://utmb.world" ++ newline)))
  = Return [(js "UTMB", js "August", js "https://utmb.world")].
Proof. vm_compute. reflexivity. Qed.

Example smoke_verbose_headered :
  summaries (parseCsvToRaces noUnicode frozenClock
    (js ("Race Name,Month Held,URL" ++ newline ++
         "Spartathlon,September,https://example.com/spartathlon" ++ newline)))
  = Return [(js "Spartathlon", js "September",
             js "https://example.com/spartathlon")].
Proof. vm_compute. reflexivity. Qed.

Example smoke_headers_only :
  parseCsvToRaces noUnicode frozenClock (js "race,month,website") = Return [].
Proof. vm_compute. reflexivity. Qed.

Example smoke_headerless :
  parseCsvToRaces noUnicode frozenClock
    (js ("1,Moggollon 100,September,https://example.com/moggollon" ++ newline ++
         "2,Falling Water 100k,April,https://example.com/falling-water" ++
         newline))
  = Throw (Error schemaMessage).
Proof. vm_compute. reflexivity. Qed.

Example numeric_first_line :
  summaries (parseCsvToRaces noUnicode frozenClock
    (js ("1,2,3,4" ++ newline ++ "2,Falling Water 100k,April,u")))
  = Return [(js "2", js "3", js "4");
            (js "Falling Water 100k", js "April", js "u")].
Proof. vm_compute. reflexivity. Qed.

Example sort_example_4 :
  List.map name (sortByMonth codeUnitCompare
    [mkRace "Black Mountain 100" "March"; mkRace "UTMB" "August";
     mkRace "Crazy Mountain 100" "July"])
  = [js "Black Mountain 100"; js "Crazy Mountain 100"; js "UTMB"].
Proof. vm_compute. reflexivity. Qed.

Example sort_unknown_last :
  List.map name (sortByMonth codeUnitCompare
    [mkRace "b" "Smarch"; mkRace "z" "May"; mkRace "a" "august";
     mkRace "y" " May "; mkRace "c" "January"])
  = [js "c"; js "y"; js "z"; js "a"; js "b"].
Proof. vm_compute. reflexivity. Qed.

Example sort_on_heap :
  let h : gmap positive object :=
    <[1%positive := RaceObject (mkRace "UTMB" "August")]>
      (<[2%positive := RaceObject (mkRace "Black Mountain 100" "March")]>
         (<[3%positive := ArrayObject [1; 2]%positive]> ∅)) in
  match sortByMonthRef codeUnitCompare h 3%positive with
  | Some (h', out) =>
      out ≠ 3%positive ∧
      h' !! 3%positive = Some (ArrayObject [1; 2]%positive) ∧
      h' !! out = Some (ArrayObject [2; 1]%positive)
  | None => False
  end.
Proof. vm_compute. repeat split; congruence. Qed.

(** ** Facts about the built-ins *)

Section BuiltinFacts.

Lemma truthy_true (s : jsstring) : truthy s = true ↔ s ≠ [].
Proof. destruct s; simpl; split; congruence. Qed.

Lemma truthy_false (s : jsstring) : truthy s = false ↔ s = [].
Proof. destruct s; simpl; split; congruence. Qed.

Lemma orElse_empty (s : jsstring) : orElse s [] = s.
Proof. by destruct s. Qed.

Lemma indexOfFrom_range (i : Z) key arr :
  indexOfFrom i key arr = (-1)%Z ∨
  (i ≤ indexOfFrom i key arr < i + Z.of_nat (length arr))%Z.
Proof.
  revert i. induction arr as [|x arr IH]; intros i; simpl; [by left|].
  case_bool_decide; [right; lia|].
  destruct (IH (i + 1)%Z) as [->|?]; [by left|right; lia].
Qed.

Lemma indexOfFrom_absent (i : Z) key arr :
  (0 ≤ i)%Z → indexOfFrom i key arr = (-1)%Z ↔ ¬ In key arr.
Proof.
  revert i. induction arr as [|x arr IH]; intros i Hi; simpl; [tauto|].
  case_bool_decide as Hx.
  - split; [lia|]. intros Hn. destruct Hn. by left.
  - rewrite IH by lia. split; [|tauto]. intros Hn [?|?]; [done|tauto].
Qed.

(** A found index is the first position of the key. *)
Lemma indexOfFrom_first (i : Z) key arr :
  (0 ≤ i)%Z → indexOfFrom i key arr ≠ (-1)%Z →
  ∃ j : nat, indexOfFrom i key arr = (i + Z.of_nat j)%Z ∧
    arr !! j = Some key ∧ ∀ j', (j' < j)%nat → arr !! j' ≠ Some key.
Proof.
  revert i. induction arr as [|x arr IH]; intros i Hi; simpl; [done|].
  case_bool_decide as Hx.
  - intros _. exists 0%nat. subst x. split_and!; [lia|done|lia].
  - intros Hf. destruct (IH (i + 1)%Z) as (j & Hj & Hl & Hmin); [lia|done|].
    exists (S j). split_and!; [lia|done|].
    intros [|j'] ?; simpl; [congruence|apply Hmin; lia].
Qed.

Lemma indexOf_absent key arr : indexOf key arr = (-1)%Z ↔ ¬ In key arr.
Proof. by apply indexOfFrom_absent. Qed.

Lemma indexOf_first key arr :
  indexOf key arr ≠ (-1)%Z →
  ∃ j : nat, indexOf key arr = Z.of_nat j ∧
    arr !! j = Some key ∧ ∀ j', (j' < j)%nat → arr !! j' ≠ Some key.
Proof.
  intros Hf. destruct (indexOfFrom_first 0 key arr) as (j & ? & ?); [done..|].
  exists j. split; [|done]. unfold indexOf. lia.
Qed.

Lemma findColumn_cons key candidates headers :
  findColumn (key :: candidates) headers =
  if negb (indexOf key headers =? -1)%Z then Some (indexOf key headers)
  else findColumn candidates headers.
Proof. reflexivity. Qed.

(** [find] never hands back the [-1] it filters out. *)
Lemma findColumn_found candidates headers (i : Z) :
  findColumn candidates headers = Some i → (0 ≤ i)%Z.
Proof.
  induction candidates as [|key cs IH]; [done|].
  rewrite findColumn_cons. destruct (Z.eqb_spec (indexOf key headers) (-1));
    simpl; [done|].
  intros [= <-].
  destruct (indexOfFrom_range 0 key headers); unfold indexOf in *; lia.
Qed.

Lemma missing_findColumn candidates headers :
  missing (findColumn candidates headers) = true ↔
  findColumn candidates headers = None.
Proof.
  destruct (findColumn candidates headers) as [i|] eqn:Hf; simpl; [|done].
  apply findColumn_found in Hf. split; [|done]. lia.
Qed.

Lemma getIndex_nth (cells : list jsstring) (i : Z) :
  (0 ≤ i)%Z → orEmpty (getIndex cells i) = nth (Z.to_nat i) cells [].
Proof.
  intros Hi. unfold getIndex. destruct (Z.ltb_spec i 0); [lia|].
  generalize (Z.to_nat i). clear. intros n. revert cells.
  induction n as [|n IH]; intros [|c cells]; simpl; try done.
  apply orElse_empty.
Qed.

End BuiltinFacts.

(** ** Ingestion *)

Lemma headerLike_false cell :
  headerLike cell = false ↔ trim cell = [] ∨ parsesAsNumber (trim cell).
Proof.
  unfold headerLike, parsesAsNumber.
  destruct (trim cell) as [|c t] eqn:Ht; simpl; [intuition|].
  split; [by right|]. by intros [?|?].
Qed.

Lemma looksLikeHeader_false cells :
  looksLikeHeader cells = false ↔
  Forall (λ c, trim c = [] ∨ parsesAsNumber (trim c)) cells.
Proof.
  unfold looksLikeHeader. induction cells as [|c cells IH]; simpl.
  - split; [constructor|done].
  - rewrite orb_false_iff, IH, headerLike_false, Forall_cons. tauto.
Qed.

Lemma headerLike_true cell :
  headerLike cell = true ↔ trim cell ≠ [] ∧ ¬ parsesAsNumber (trim cell).
Proof.
  unfold headerLike, parsesAsNumber.
  destruct (trim cell) as [|c t]; cbn [truthy negb].
  - split; [done|]. by intros [? _].
  - destruct (numberIsNaN (c :: t)); intuition congruence.
Qed.

Lemma looksLikeHeader_true cells :
  looksLikeHeader cells = true ↔
  Exists (λ c, trim c ≠ [] ∧ ¬ parsesAsNumber (trim c)) cells.
Proof.
  unfold looksLikeHeader. induction cells as [|c cells IH]; simpl.
  - split; [done|]. by intros ?%Exists_nil.
  - by rewrite orb_true_iff, IH, Exists_cons, headerLike_true.
Qed.

Section IngestionFacts.
Variable unicodeLower : jsstring → jsstring.
Variable now : nat → Z.

(** The body of [parseCsvToRaces] after its column mapping is known. *)
Lemma parseCsvToRaces_columns text :
  parseCsvToRaces unicodeLower now text =
  match columnsOf unicodeLower text with
  | None => Return []
  | Some m =>
      if missing (nameIdx m) || missing (monthIdx m) then
        Throw (Error schemaMessage)
      else
        Return (List.filter
                  (λ race, truthy (name race) && truthy (month race))
                  (imap (rowToRace now m)
                        (skipn (startIndex m) (nonBlankLines text))))
  end.
Proof.
  unfold parseCsvToRaces, parseCsvWith, columnsOf.
  by destruct (nonBlankLines text).
Qed.

Lemma columnsOf_headerless text line0 rest :
  nonBlankLines text = line0 :: rest →
  looksLikeHeader (split 44 line0) = false →
  columnsOf unicodeLower text = Some positional.
Proof. unfold columnsOf, resolveColumns. by intros -> ->. Qed.

Lemma columnsOf_headered text line0 rest :
  nonBlankLines text = line0 :: rest →
  looksLikeHeader (split 44 line0) = true →
  columnsOf unicodeLower text =
    Some (resolveColumns unicodeLower true (split 44 line0)).
Proof. unfold columnsOf. by intros -> ->. Qed.

(** In a resolved mapping an index is missing only when it is [undefined]:
    the [=== -1] tests of line 251 never fire. *)
Lemma columnsOf_missing text m :
  columnsOf unicodeLower text = Some m →
  (missing (nameIdx m) = true ↔ nameIdx m = None) ∧
  (missing (monthIdx m) = true ↔ monthIdx m = None) ∧
  (missing (websiteIdx m) = true ↔ websiteIdx m = None).
Proof.
  unfold columnsOf. destruct (nonBlankLines text) as [|line0 rest]; [done|].
  intros [= <-]. unfold resolveColumns.
  destruct (looksLikeHeader _); simpl;
    [by rewrite !missing_findColumn|by split_and!].
Qed.

Lemma columnsOf_nonneg text m :
  columnsOf unicodeLower text = Some m →
  (∀ i, nameIdx m = Some i → (0 ≤ i)%Z) ∧
  (∀ i, monthIdx m = Some i → (0 ≤ i)%Z) ∧
  (∀ i, websiteIdx m = Some i → (0 ≤ i)%Z).
Proof.
  unfold columnsOf. destruct (nonBlankLines text) as [|line0 rest]; [done|].
  intros [= <-]. unfold resolveColumns.
  destruct (looksLikeHeader _); simpl.
  - split_and!; intros i; apply findColumn_found.
  - split_and!; intros i [= <-]; lia.
Qed.

End IngestionFacts.

(** C1 (as the code behaves): on the single line
    ["1,Moggollon 100,September,https://x/m"] the cell ["Moggollon 100"] is
    not numeric, so the line is taken for a header row, no name or month
    synonym is found in it, and [parseCsvToRaces] throws the schema error
    instead of returning the one record of the smoke test. *)
Theorem moggollon_line_is_rejected
    (unicodeLower : jsstring → jsstring) (now : nat → Z) :
  parseCsvToRaces unicodeLower now
    (js "1,Moggollon 100,September,https://x/m")
  = Throw (Error schemaMessage).
Proof. vm_compute. reflexivity. Qed.

(** C2: on a non-empty input the first line is classified headerless (the
    positional mapping, data from line 0) when each of its cells is, once
    trimmed, empty or a number, and headered (data from line 1) when some
    cell is, once trimmed, non-empty and not a number. *)
Theorem header_detection
    (unicodeLower : jsstring → jsstring) (text line0 : jsstring)
    (rest : list jsstring) :
  nonBlankLines text = line0 :: rest →
  (Forall (λ c, trim c = [] ∨ parsesAsNumber (trim c)) (split 44 line0) →
   looksLikeHeader (split 44 line0) = false ∧
   columnsOf unicodeLower text = Some positional) ∧
  (Exists (λ c, trim c ≠ [] ∧ ¬ parsesAsNumber (trim c)) (split 44 line0) →
   looksLikeHeader (split 44 line0) = true ∧
   ∃ m, columnsOf unicodeLower text = Some m ∧ startIndex m = 1%nat).
Proof.
  intros Hlines. split.
  - intros Hall%looksLikeHeader_false. split; [done|].
    exact (columnsOf_headerless unicodeLower _ _ _ Hlines Hall).
  - intros Hsome%looksLikeHeader_true. split; [done|].
    eexists. split;
      [exact (columnsOf_headered unicodeLower _ _ _ Hlines Hsome)|done].
Qed.

Lemma header_detection_witness :
  (looksLikeHeader (split 44 (js "1, 2.5,,0x1f")) = false ∧
   columnsOf noUnicode (js "1, 2.5,,0x1f") = Some positional) ∧
  (looksLikeHeader (split 44 (js "7,Race Name")) = true ∧
   ∃ m, columnsOf noUnicode (js "7,Race Name") = Some m ∧
        startIndex m = 1%nat).
Proof.
  split.
  - apply (header_detection noUnicode (js "1, 2.5,,0x1f")
             (js "1, 2.5,,0x1f") []); [reflexivity|].
    change (split 44 (js "1, 2.5,,0x1f"))
      with [js "1"; js " 2.5"; js ""; js "0x1f"].
    repeat (constructor; [vm_compute; auto|]). constructor.
  - apply (header_detection noUnicode (js "7,Race Name")
             (js "7,Race Name") []); [reflexivity|].
    change (split 44 (js "7,Race Name")) with [js "7"; js "Race Name"].
    apply Exists_cons_tl, Exists_cons_hd.
    split; vm_compute; congruence.
Defined.

(** C9: when the first line is classified headerless (every cell empty or
    numeric once trimmed) the name and month indices are the positions 1
    and 2, and [parseCsvToRaces] returns: the schema error cannot happen. *)
Theorem headerless_never_raises
    (unicodeLower : jsstring → jsstring) (now : nat → Z)
    (text line0 : jsstring) (rest : list jsstring) :
  nonBlankLines text = line0 :: rest →
  Forall (λ c, trim c = [] ∨ parsesAsNumber (trim c)) (split 44 line0) →
  (∃ m, columnsOf unicodeLower text = Some m ∧
        nameIdx m = Some 1%Z ∧ monthIdx m = Some 2%Z) ∧
  ∃ rs, parseCsvToRaces unicodeLower now text = Return rs.
Proof.
  intros Hlines Hall%looksLikeHeader_false.
  pose proof (columnsOf_headerless unicodeLower _ _ _ Hlines Hall) as Hm.
  split; [by exists positional|].
  rewrite parseCsvToRaces_columns, Hm. simpl. eauto.
Qed.

Lemma headerless_never_raises_witness :
  (∃ m, columnsOf noUnicode (js "1,2,,3") = Some m ∧
        nameIdx m = Some 1%Z ∧ monthIdx m = Some 2%Z) ∧
  ∃ rs, parseCsvToRaces noUnicode frozenClock (js "1,2,,3") = Return rs.
Proof.
  apply (headerless_never_raises noUnicode frozenClock (js "1,2,,3")
           (js "1,2,,3") []); [reflexivity|].
  change (split 44 (js "1,2,,3")) with [js "1"; js "2"; js ""; js "3"].
  repeat (constructor; [vm_compute; auto|]). constructor.
Defined.

(** C8: an input that is only a header row whose name and month columns
    resolve gives no record and does not throw; an input without a
    non-blank line gives no record and does not throw, whatever the header
    heuristic is: it is not consulted. *)
Theorem header_only_and_empty_input
    (unicodeLower : jsstring → jsstring) (now : nat → Z) (text : jsstring) :
  (∀ line0 m,
     nonBlankLines text = [line0] →
     looksLikeHeader (split 44 line0) = true →
     columnsOf unicodeLower text = Some m →
     nameIdx m ≠ None → monthIdx m ≠ None →
     parseCsvToRaces unicodeLower now text = Return []) ∧
  (nonBlankLines text = [] →
   columnsOf unicodeLower text = None ∧
   ∀ detect, parseCsvWith unicodeLower now detect text = Return []).
Proof.
  split.
  - intros line0 m Hlines Hhdr Hm Hname Hmonth.
    rewrite parseCsvToRaces_columns, Hm.
    destruct (columnsOf_missing _ _ _ Hm) as (Hn & Hmo & _).
    destruct (missing (nameIdx m)); [by destruct Hname; apply Hn|].
    destruct (missing (monthIdx m)); [by destruct Hmonth; apply Hmo|].
    simpl. rewrite (columnsOf_headered _ _ _ _ Hlines Hhdr) in Hm.
    injection Hm as <-. by rewrite Hlines.
  - intros Hlines. unfold columnsOf, parseCsvWith. by rewrite Hlines.
Qed.

Lemma header_only_and_empty_input_witness :
  parseCsvToRaces noUnicode frozenClock (js "Event, MONTH ,x") = Return [] ∧
  (columnsOf noUnicode (js (newline ++ "  " ++ newline)) = None ∧
   ∀ detect,
     parseCsvWith noUnicode frozenClock detect
       (js (newline ++ "  " ++ newline)) = Return []).
Proof.
  split.
  - eapply (proj1 (header_only_and_empty_input noUnicode frozenClock
                     (js "Event, MONTH ,x")));
      [reflexivity|reflexivity|reflexivity|vm_compute; congruence..].
  - apply (proj2 (header_only_and_empty_input noUnicode frozenClock
                    (js (newline ++ "  " ++ newline)))).
    reflexivity.
Defined.

(** *** Rows *)

Lemma filter_imap_map {A B C : Type} (f : nat → A → B)
    (g : B → C) (p : B → bool) (g' : A → C) (p' : A → bool) (l : list A) :
  (∀ i x, g (f i x) = g' x) → (∀ i x, p (f i x) = p' x) →
  List.map g (List.filter p (imap f l)) = List.map g' (List.filter p' l).
Proof.
  revert f. induction l as [|x l IH]; intros f Hg Hp; simpl; [done|].
  rewrite Hp. destruct (p' x); simpl; rewrite ?Hg; f_equal;
    apply IH; intros; simpl; auto.
Qed.

Lemma trim_empty : trim [] = [].
Proof. reflexivity. Qed.

Lemma rowToRace_name now m index line (n : Z) :
  nameIdx m = Some n → (0 ≤ n)%Z →
  name (rowToRace now m index line) = trimmedCell line n.
Proof.
  intros Hn Hpos. unfold rowToRace, trimmedCell. simpl.
  rewrite Hn. simpl. by rewrite getIndex_nth.
Qed.

Lemma rowToRace_month now m index line (mo : Z) :
  monthIdx m = Some mo → (0 ≤ mo)%Z →
  month (rowToRace now m index line) = trimmedCell line mo.
Proof.
  intros Hmo Hpos. unfold rowToRace, trimmedCell. simpl.
  rewrite Hmo. simpl. by rewrite getIndex_nth.
Qed.

Lemma rowToRace_website now m index line :
  (∀ i, websiteIdx m = Some i → (0 ≤ i)%Z) →
  website (rowToRace now m index line) = referenceCell line (websiteIdx m).
Proof.
  intros Hpos. unfold rowToRace, referenceCell, trimmedCell. simpl.
  destruct (websiteIdx m) as [w|]; simpl; [|done].
  specialize (Hpos w eq_refl).
  destruct (Z.eqb_spec w (-1)); [lia|]. simpl.
  rewrite <-getIndex_nth by done.
  destruct (getIndex (split 44 line) w) as [[|c cell]|]; simpl; done.
Qed.

Lemma filter_truthy_Forall (rs : list race) :
  Forall (λ r, name r ≠ [] ∧ month r ≠ [])
    (List.filter (λ race, truthy (name race) && truthy (month race)) rs).
Proof.
  apply List.Forall_forall. intros r [_ Hr]%filter_In.
  apply andb_true_iff in Hr as [Hn Hm].
  by rewrite <-!truthy_true.
Qed.

(** C3: when the name and month columns resolve, [parseCsvToRaces] returns
    the data lines (those from [startIndex] on) whose trimmed name and month
    cells are both non-empty, one record each and in the order of the
    lines; the other lines are dropped, so no returned record has an empty
    name or month. *)
Theorem one_record_per_valid_line
    (unicodeLower : jsstring → jsstring) (now : nat → Z)
    (text : jsstring) (m : ColumnMapping) (n mo : Z) :
  columnsOf unicodeLower text = Some m →
  nameIdx m = Some n → monthIdx m = Some mo →
  let valid line :=
    truthy (trimmedCell line n) && truthy (trimmedCell line mo) in
  let dataLines := skipn (startIndex m) (nonBlankLines text) in
  ∃ rs,
    parseCsvToRaces unicodeLower now text = Return rs ∧
    List.map summary rs =
      List.map (λ line, (trimmedCell line n, trimmedCell line mo,
                         referenceCell line (websiteIdx m)))
               (List.filter valid dataLines) ∧
    length rs = length (List.filter valid dataLines) ∧
    Forall (λ r, name r ≠ [] ∧ month r ≠ []) rs.
Proof.
  intros Hm Hn Hmo valid dataLines.
  destruct (columnsOf_nonneg _ _ _ Hm) as (Hn0 & Hmo0 & Hw0).
  specialize (Hn0 n Hn). specialize (Hmo0 mo Hmo).
  rewrite parseCsvToRaces_columns, Hm, Hn, Hmo. simpl.
  destruct (Z.eqb_spec n (-1)); [lia|].
  destruct (Z.eqb_spec mo (-1)); [lia|]. simpl.
  eexists. split; [reflexivity|].
  assert (List.map summary
            (List.filter (λ race, truthy (name race) && truthy (month race))
               (imap (rowToRace now m) dataLines)) =
          List.map (λ line, (trimmedCell line n, trimmedCell line mo,
                             referenceCell line (websiteIdx m)))
                   (List.filter valid dataLines)) as Heq.
  { apply filter_imap_map; intros i line; unfold summary, valid.
    - by rewrite (rowToRace_name _ _ _ _ n), (rowToRace_month _ _ _ _ mo),
        rowToRace_website.
    - by rewrite (rowToRace_name _ _ _ _ n), (rowToRace_month _ _ _ _ mo). }
  split_and!; [done| |apply filter_truthy_Forall].
  apply (f_equal length) in Heq. by rewrite !length_map in Heq.
Qed.

Lemma one_record_per_valid_line_witness :
  ∃ rs,
    parseCsvToRaces noUnicode frozenClock
      (js ("URL,Race,Month" ++ newline ++ "u1, UTMB ,August,extra" ++
           newline ++ ",,May" ++ newline ++ "u3,Hardrock" ++ newline ++
           "u4,Leadville, July ")) = Return rs ∧
    List.map summary rs =
      [(js "UTMB", js "August", js "u1");
       (js "Leadville", js "July", js "u4")] ∧
    length rs = 2%nat ∧
    Forall (λ r, name r ≠ [] ∧ month r ≠ []) rs.
Proof.
  exact (one_record_per_valid_line noUnicode frozenClock
           (js ("URL,Race,Month" ++ newline ++ "u1, UTMB ,August,extra" ++
                newline ++ ",,May" ++ newline ++ "u3,Hardrock" ++ newline ++
                "u4,Leadville, July "))
           {| nameIdx := Some 1%Z; monthIdx := Some 2%Z;
              websiteIdx := Some 0%Z; startIndex := 1 |}
           1%Z 2%Z eq_refl eq_refl eq_refl).
Defined.

(** C4: [parseCsvToRaces] throws exactly when the name index or the month
    index of the resolved mapping is absent, and what it throws is the
    schema error; an absent website index does not make it throw, and every
    record then has the empty website. *)
Theorem schema_error_iff_name_or_month_absent
    (unicodeLower : jsstring → jsstring) (now : nat → Z) (text : jsstring) :
  ((∃ e, parseCsvToRaces unicodeLower now text = Throw e) ↔
   ∃ m, columnsOf unicodeLower text = Some m ∧
        (nameIdx m = None ∨ monthIdx m = None)) ∧
  (∀ e, parseCsvToRaces unicodeLower now text = Throw e →
        e = Error schemaMessage) ∧
  (∀ m, columnsOf unicodeLower text = Some m →
        websiteIdx m = None → nameIdx m ≠ None → monthIdx m ≠ None →
        ∃ rs, parseCsvToRaces unicodeLower now text = Return rs ∧
              Forall (λ r, website r = []) rs).
Proof.
  rewrite parseCsvToRaces_columns.
  destruct (columnsOf unicodeLower text) as [m|] eqn:Hm.
  - destruct (columnsOf_missing _ _ _ Hm) as (Hn & Hmo & _).
    destruct (missing (nameIdx m)) eqn:En; simpl.
    { split_and!.
      - split; [|by eauto]. intros _. exists m. split; [done|].
        left. by apply Hn.
      - by intros e [= <-].
      - intros m' [= <-] _ Hname. destruct Hname. by apply Hn. }
    destruct (missing (monthIdx m)) eqn:Emo; simpl.
    { split_and!.
      - split; [|by eauto]. intros _. exists m. split; [done|].
        right. by apply Hmo.
      - by intros e [= <-].
      - intros m' [= <-] _ _ Hmonth. destruct Hmonth. by apply Hmo. }
    split_and!.
    + split; [by intros [e ?]|]. intros (m' & [= <-] & [Ha|Ha]).
      * apply Hn in Ha. congruence.
      * apply Hmo in Ha. congruence.
    + done.
    + intros m' [= <-] Hw _ _. eexists. split; [reflexivity|].
      apply List.Forall_forall. intros r [Hr _]%filter_In.
      apply list_elem_of_In, elem_of_lookup_imap in Hr as (i & line & -> & _).
      unfold rowToRace. simpl. by rewrite Hw.
  - split_and!.
    + split; [by intros [e ?]|]. by intros (m & ? & _).
    + done.
    + done.
Qed.

Lemma schema_error_iff_name_or_month_absent_witness :
  (∃ e, parseCsvToRaces noUnicode frozenClock (js "color,size,price")
        = Throw e) ∧
  (∃ rs, parseCsvToRaces noUnicode frozenClock
           (js ("month,race" ++ newline ++ "May,Zion,http://z")) = Return rs ∧
         Forall (λ r, website r = []) rs).
Proof.
  split.
  - apply (proj1 (schema_error_iff_name_or_month_absent noUnicode frozenClock
                    (js "color,size,price"))).
    eexists. split; [reflexivity|]. by left.
  - apply (proj2 (proj2 (schema_error_iff_name_or_month_absent noUnicode
             frozenClock (js ("month,race" ++ newline ++ "May,Zion,http://z"))))
             {| nameIdx := Some 1%Z; monthIdx := Some 0%Z;
                websiteIdx := None; startIndex := 1 |});
      [reflexivity|reflexivity|simpl; congruence..].
Defined.

(** *** Synonym resolution *)

Lemma findColumn_firstMatch (synonyms headers : list jsstring) :
  firstMatch synonyms headers (findColumn synonyms headers).
Proof.
  induction synonyms as [|key cs IH].
  - simpl. by intros syn [].
  - rewrite findColumn_cons.
    destruct (Z.eqb_spec (indexOf key headers) (-1)) as [Habs|Hfound]; simpl.
    + apply indexOf_absent in Habs.
      destruct (findColumn cs headers) as [i|]; simpl in *.
      * destruct IH as (k & j & syn & Hk & Hearlier & -> & Hj & Hmin).
        exists (S k), j, syn. split_and!; try done.
        intros [|k'] syn' Hlt; simpl; [by intros [= <-]|].
        apply Hearlier. lia.
      * intros syn [<-|Hin]; [done|by apply IH].
    + destruct (indexOf_first key headers Hfound) as (j & -> & Hj & Hmin).
      exists 0%nat, j, key. split_and!; try done. intros; lia.
Qed.

(** The index is determined by [firstMatch]: there is one answer only. *)
Lemma firstMatch_unique (synonyms headers : list jsstring) (a b : option Z) :
  firstMatch synonyms headers a → firstMatch synonyms headers b → a = b.
Proof.
  assert (∀ l (x : jsstring) j, l !! j = Some x → In x l) as Hin.
  { intros l x j Hl. apply list_elem_of_In. by eapply list_elem_of_lookup_2. }
  destruct a as [i|], b as [i'|]; simpl; try done.
  - intros (k & j & syn & Hk & Hearly & -> & Hj & Hmin)
           (k' & j' & syn' & Hk' & Hearly' & -> & Hj' & Hmin').
    assert (k = k') as <-.
    { destruct (Nat.lt_total k k') as [Hlt|[?|Hlt]]; [|done|].
      - destruct (Hearly' k syn Hlt Hk). eauto.
      - destruct (Hearly k' syn' Hlt Hk'). eauto. }
    assert (syn' = syn) as -> by congruence.
    do 2 f_equal.
    destruct (Nat.lt_total j j') as [Hlt|[?|Hlt]]; [|done|].
    + by destruct (Hmin' j Hlt).
    + by destruct (Hmin j' Hlt).
  - intros (k & j & syn & Hk & _ & _ & Hj & _) Hnone.
    destruct (Hnone syn); eauto.
  - intros Hnone (k & j & syn & Hk & _ & _ & Hj & _).
    destruct (Hnone syn); eauto.
Qed.

(** C5: on a headered input each of the three indices is resolved from its
    own fixed synonym list against the trimmed, lower-cased header cells: it
    is the position in the header row of the first synonym, in the order of
    the list, that equals some header cell, whatever the order of the
    columns, and it is absent when no synonym of the list equals a header
    cell. *)
Theorem synonym_resolution
    (unicodeLower : jsstring → jsstring) (text line0 : jsstring)
    (rest : list jsstring) :
  nonBlankLines text = line0 :: rest →
  looksLikeHeader (split 44 line0) = true →
  let headers :=
    List.map (λ h, toLowerCase unicodeLower (trim h)) (split 44 line0) in
  ∃ m, columnsOf unicodeLower text = Some m ∧
    startIndex m = 1%nat ∧
    firstMatch nameCandidates headers (nameIdx m) ∧
    firstMatch monthCandidates headers (monthIdx m) ∧
    firstMatch websiteCandidates headers (websiteIdx m) ∧
    (∀ a b c,
       firstMatch nameCandidates headers a →
       firstMatch monthCandidates headers b →
       firstMatch websiteCandidates headers c →
       nameIdx m = a ∧ monthIdx m = b ∧ websiteIdx m = c).
Proof.
  intros Hlines Hhdr headers.
  eexists. split; [exact (columnsOf_headered _ _ _ _ Hlines Hhdr)|].
  simpl. fold headers.
  split_and!; try done; try apply findColumn_firstMatch.
  intros a b c Ha Hb Hc.
  split_and!; eapply firstMatch_unique; eauto using findColumn_firstMatch.
Qed.

Lemma synonym_resolution_witness :
  ∃ m, columnsOf noUnicode (js "Link,Event,Race Month, NAME ,month,url")
       = Some m ∧
    startIndex m = 1%nat ∧
    firstMatch nameCandidates
      [js "link"; js "event"; js "race month"; js "name"; js "month";
       js "url"] (nameIdx m) ∧
    firstMatch monthCandidates
      [js "link"; js "event"; js "race month"; js "name"; js "month";
       js "url"] (monthIdx m) ∧
    firstMatch websiteCandidates
      [js "link"; js "event"; js "race month"; js "name"; js "month";
       js "url"] (websiteIdx m) ∧
    (∀ a b c,
       firstMatch nameCandidates
         [js "link"; js "event"; js "race month"; js "name"; js "month";
          js "url"] a →
       firstMatch monthCandidates
         [js "link"; js "event"; js "race month"; js "name"; js "month";
          js "url"] b →
       firstMatch websiteCandidates
         [js "link"; js "event"; js "race month"; js "name"; js "month";
          js "url"] c →
       nameIdx m = a ∧ monthIdx m = b ∧ websiteIdx m = c).
Proof.
  exact (synonym_resolution noUnicode
           (js "Link,Event,Race Month, NAME ,month,url")
           (js "Link,Event,Race Month, NAME ,month,url") []
           eq_refl eq_refl).
Defined.

(** The earlier synonym wins over the earlier column: ["name"] in column 3
    is taken though ["event"] stands in column 1, and ["url"] in column 5
    though ["link"] stands in column 0. *)
Example priority_beats_position :
  columnsOf noUnicode (js "Link,Event,Race Month, NAME ,month,url")
  = Some {| nameIdx := Some 3%Z; monthIdx := Some 4%Z;
            websiteIdx := Some 5%Z; startIndex := 1 |}.
Proof. reflexivity. Qed.

(** ** Ordering *)

Section SortFacts.
Context {A : Type} (comparator : A → A → Z).

Lemma insertSorted_Permutation (x : A) (l : list A) :
  Permutation (insertSorted comparator x l) (x :: l).
Proof.
  induction l as [|y l IH]; simpl; [done|].
  destruct (0 <? comparator x y)%Z; [|done].
  rewrite IH. apply perm_swap.
Qed.

Lemma sort_Permutation (l : list A) : Permutation (sort comparator l) l.
Proof.
  induction l as [|x l IH]; simpl; [done|].
  by rewrite insertSorted_Permutation, IH.
Qed.

(** Sorting references by what they refer to sorts what they refer to. *)
Lemma sort_map {B : Type} (f : B → A) (l : list B) :
  List.map f (sort (λ a b, comparator (f a) (f b)) l) =
  sort comparator (List.map f l).
Proof.
  induction l as [|x l IH]; simpl; [done|].
  rewrite <-IH. generalize (sort (λ a b, comparator (f a) (f b)) l).
  clear. intros l. induction l as [|y l IH]; simpl; [done|].
  destruct (0 <? comparator (f x) (f y))%Z; simpl; [by rewrite IH|done].
Qed.

Section Sorted.
Variable R : A → A → Prop.
Hypothesis R_not_after : ∀ x y, ¬ (0 < comparator x y)%Z → R x y.
Hypothesis R_after : ∀ x y, (0 < comparator x y)%Z → R y x.

Lemma insertSorted_HdRel (x y : A) (l : list A) :
  R y x → HdRel R y l → HdRel R y (insertSorted comparator x l).
Proof.
  intros Hyx Hhd. destruct l as [|z l]; simpl; [by constructor|].
  inversion_clear Hhd. destruct (0 <? comparator x z)%Z; by constructor.
Qed.

Lemma insertSorted_Sorted (x : A) (l : list A) :
  Sorted R l → Sorted R (insertSorted comparator x l).
Proof.
  induction l as [|y l IH]; simpl; intros Hs.
  - by repeat constructor.
  - destruct (Z.ltb_spec 0 (comparator x y)) as [Hlt|Hge].
    + inversion_clear Hs. constructor; [by apply IH|].
      apply insertSorted_HdRel; [by apply R_after|done].
    + constructor; [done|]. constructor. apply R_not_after. lia.
Qed.

Lemma sort_Sorted (l : list A) : Sorted R (sort comparator l).
Proof.
  induction l as [|x l IH]; simpl; [constructor|].
  by apply insertSorted_Sorted.
Qed.
End Sorted.
End SortFacts.

Lemma Sorted_adjacent {A : Type} (R : A → A → Prop) (l : list A)
    (i : nat) (a b : A) :
  Sorted R l → l !! i = Some a → l !! S i = Some b → R a b.
Proof.
  intros Hs. revert i. induction Hs as [|x l Hs IH Hhd]; intros i; [done|].
  destruct i as [|i]; simpl.
  - intros [= ->]. destruct l as [|y l]; simpl; [done|].
    intros [= ->]. by inversion_clear Hhd.
  - apply IH.
Qed.

Lemma StronglySorted_lookup {A : Type} (R : A → A → Prop) (l : list A)
    (i j : nat) (a b : A) :
  StronglySorted R l → (i < j)%nat →
  l !! i = Some a → l !! j = Some b → R a b.
Proof.
  intros Hs. revert i j.
  induction Hs as [|x l Hs IH Hall]; intros i j Hij; [done|].
  destruct j as [|j]; [lia|]. destruct i as [|i]; simpl.
  - intros [= ->] Hb. rewrite List.Forall_forall in Hall. apply Hall.
    apply list_elem_of_In. by eapply list_elem_of_lookup_2.
  - apply IH. lia.
Qed.

(** *** The comparator *)

Lemma monthOrder_NoDup : NoDup monthOrder.
Proof. apply (bool_decide_unpack (NoDup monthOrder)). vm_compute. exact I. Qed.

(** The rank of a recognised month is its position in [monthOrder]. *)
Lemma monthIndex_known (r : race) (k : nat) :
  monthOrder !! k = Some (trim (month r)) → monthIndex r = Z.of_nat k.
Proof.
  intros Hk. unfold monthIndex. rewrite orElse_empty.
  assert (In (trim (month r)) monthOrder) as Hin.
  { apply list_elem_of_In. by eapply list_elem_of_lookup_2. }
  destruct (Z.eqb_spec (indexOf (trim (month r)) monthOrder) (-1)) as [He|Hne].
  - by apply indexOf_absent in He.
  - destruct (indexOf_first _ _ Hne) as (j & -> & Hj & _).
    f_equal. eapply NoDup_lookup; eauto using monthOrder_NoDup.
Qed.

Lemma monthIndex_recognized (r : race) :
  In (trim (month r)) monthOrder → (0 ≤ monthIndex r ≤ 11)%Z.
Proof.
  intros Hin. apply list_elem_of_In, list_elem_of_lookup_1 in Hin as [k Hk].
  rewrite (monthIndex_known r k Hk).
  apply lookup_lt_Some in Hk. simpl in Hk. lia.
Qed.

Lemma monthIndex_unrecognized (r : race) :
  ¬ In (trim (month r)) monthOrder → monthIndex r = MAX_SAFE_INTEGER.
Proof.
  intros Hin. unfold monthIndex. rewrite orElse_empty.
  apply indexOf_absent in Hin. by rewrite Hin.
Qed.

Section OrderingFacts.
Variable localeCompare : jsstring → jsstring → Z.

Lemma compareRaces_not_after (a b : race) :
  ¬ (0 < compareRaces localeCompare a b)%Z →
  (monthIndex a ≤ monthIndex b)%Z ∧
  (monthIndex a = monthIndex b →
   (localeCompare (name a) (name b) ≤ 0)%Z).
Proof.
  unfold compareRaces. rewrite !orElse_empty.
  destruct (Z.eqb_spec (monthIndex a) (monthIndex b)); simpl; lia.
Qed.

Lemma compareRaces_after (a b : race) :
  (0 < compareRaces localeCompare a b)%Z →
  (monthIndex b ≤ monthIndex a)%Z ∧
  (monthIndex b = monthIndex a →
   (0 < localeCompare (name a) (name b))%Z).
Proof.
  unfold compareRaces. rewrite !orElse_empty.
  destruct (Z.eqb_spec (monthIndex a) (monthIndex b)); simpl; lia.
Qed.

(** Whatever the collation, the result is in rank order. *)
Lemma sortByMonth_rank_sorted (races : list race) :
  StronglySorted (λ a b, (monthIndex a ≤ monthIndex b)%Z)
    (sortByMonth localeCompare races).
Proof.
  apply Sorted_StronglySorted; [intros a b c; lia|].
  apply sort_Sorted.
  - intros x y Hxy. by apply compareRaces_not_after.
  - intros x y Hxy. by apply compareRaces_after.
Qed.

End OrderingFacts.

Lemma codeUnitCompare_total : totalCollation codeUnitCompare.
Proof.
  intros a. induction a as [|x a IH]; intros [|y b]; simpl; try lia.
  destruct (N.ltb_spec x y), (N.ltb_spec y x); try lia. apply IH.
Qed.

Lemma hasRank_monthIndex (r : race) : hasRank r (monthIndex r).
Proof.
  destruct (decide (trim (month r) ∈ monthOrder)) as [Hin|Hout].
  - left. apply list_elem_of_lookup_1 in Hin as [n Hn].
    exists n. split; [done|]. by apply monthIndex_known.
  - right. rewrite list_elem_of_In in Hout.
    split; [done|]. by apply monthIndex_unrecognized.
Qed.

Lemma hasRank_unique (r : race) (k : Z) : hasRank r k → k = monthIndex r.
Proof.
  intros [(n & Hn & ->)|[Hout ->]].
  - symmetry. by apply monthIndex_known.
  - symmetry. by apply monthIndex_unrecognized.
Qed.

(** C6: the result of [sortByMonth] holds the races of the batch, and every
    two neighbours [r1], [r2] in it are in rank order, the rank of a race
    being the position of its trimmed month in [monthOrder]
    ([Number.MAX_SAFE_INTEGER] for a month that is not in it): the rank of
    [r1] is at most the rank of [r2], and when the two ranks are equal the
    name of [r1] is not after the name of [r2] for [localeCompare].  The
    ranks are the numbers the comparator computes. *)
Theorem sorted_adjacent_pairs
    (localeCompare : jsstring → jsstring → Z) (races : list race) :
  totalCollation localeCompare →
  Permutation (sortByMonth localeCompare races) races ∧
  ∀ (i : nat) (r1 r2 : race),
    sortByMonth localeCompare races !! i = Some r1 →
    sortByMonth localeCompare races !! S i = Some r2 →
    hasRank r1 (monthIndex r1) ∧ hasRank r2 (monthIndex r2) ∧
    ∀ k1 k2, hasRank r1 k1 → hasRank r2 k2 →
      (k1 ≤ k2)%Z ∧
      (k1 = k2 → (localeCompare (name r1) (name r2) ≤ 0)%Z).
Proof.
  intros Htotal.
  split; [apply sort_Permutation|]. intros i r1 r2 Hr1 Hr2.
  split; [apply hasRank_monthIndex|].
  split; [apply hasRank_monthIndex|].
  intros k1 k2 ->%hasRank_unique ->%hasRank_unique.
  revert Hr1 Hr2.
  apply (Sorted_adjacent
           (λ a b, (monthIndex a ≤ monthIndex b)%Z ∧
                   (monthIndex a = monthIndex b →
                    (localeCompare (name a) (name b) ≤ 0)%Z))).
  apply sort_Sorted.
  - apply compareRaces_not_after.
  - intros x y [Hrank Hname]%compareRaces_after. split; [done|].
    intros Heq. specialize (Hname Heq).
    destruct (Htotal (name x) (name y)); [lia|done].
Qed.

(** In the sorted [mixedBatch] the first two races are the two of March,
    rank 2, now with ["Alpha"] before ["Zed"]; the fourth and the fifth are
    ["UTMB"] of August, rank 7, and ["Able"], whose month ["august"] is not
    recognised. *)
Lemma sorted_adjacent_pairs_witness :
  ((2 ≤ 2)%Z ∧
   (2%Z = 2%Z → (codeUnitCompare (js "Alpha") (js "Zed") ≤ 0)%Z)) ∧
  ((7 ≤ MAX_SAFE_INTEGER)%Z ∧
   (7%Z = MAX_SAFE_INTEGER →
    (codeUnitCompare (js "UTMB") (js "Able") ≤ 0)%Z)) ∧
  Permutation (sortByMonth codeUnitCompare mixedBatch) mixedBatch.
Proof.
  pose proof (sorted_adjacent_pairs codeUnitCompare mixedBatch
                codeUnitCompare_total) as [Hperm Hpairs].
  pose proof (Hpairs 0%nat (mkRace "Alpha" " March ") (mkRace "Zed" "March")
                eq_refl eq_refl) as (_ & _ & Hmarch).
  pose proof (Hpairs 3%nat (mkRace "UTMB" "August") (mkRace "Able" "august")
                eq_refl eq_refl) as (_ & _ & Hlast).
  split; [|split; [|exact Hperm]].
  - apply Hmarch; left; exists 2%nat; split; reflexivity.
  - apply Hlast.
    + left. exists 7%nat. split; reflexivity.
    + right. split; [|reflexivity]. vm_compute. intuition discriminate.
Defined.

Lemma rank_sorted_blocks (l : list race) :
  StronglySorted (λ a b, (monthIndex a ≤ monthIndex b)%Z) l →
  ∃ known unknown,
    l = known ++ unknown ∧
    Forall recognized known ∧ Forall (λ r, ¬ recognized r) unknown.
Proof.
  induction 1 as [|x l Hs IH Hall].
  - exists [], []. by split_and!.
  - destruct IH as (known & unknown & -> & Hk & Hu).
    destruct (decide (trim (month x) ∈ monthOrder)) as [Hx|Hx];
      rewrite list_elem_of_In in Hx.
    + exists (x :: known), unknown. split_and!; [done| |done].
      by constructor.
    + exists [], (x :: known ++ unknown). split_and!; [done|done|].
      constructor; [done|].
      apply List.Forall_forall. intros r Hr Hrec.
      rewrite List.Forall_forall in Hall. specialize (Hall r Hr).
      apply monthIndex_recognized in Hrec.
      rewrite (monthIndex_unrecognized x Hx) in Hall.
      unfold MAX_SAFE_INTEGER in Hall. lia.
Qed.

(** C7: the rank of every race is the one [hasRank] describes; a race
    whose trimmed month is none of the twelve names gets the rank
    [Number.MAX_SAFE_INTEGER], above the ranks 0..11 of the recognised
    months.  So the result of [sortByMonth], which holds the races of the
    batch, is the recognised races followed by the unrecognised ones in one
    block: every recognised race stands before every unrecognised one. *)
Theorem unknown_months_sort_last
    (localeCompare : jsstring → jsstring → Z) (races : list race) :
  (∀ r, hasRank r (monthIndex r)) ∧
  (∀ r, ¬ recognized r →
     monthIndex r = MAX_SAFE_INTEGER ∧
     ∀ r', recognized r' →
       (0 ≤ monthIndex r' ≤ 11)%Z ∧ (monthIndex r' < monthIndex r)%Z) ∧
  Permutation (sortByMonth localeCompare races) races ∧
  (∃ known unknown,
     sortByMonth localeCompare races = known ++ unknown ∧
     Forall recognized known ∧ Forall (λ r, ¬ recognized r) unknown ∧
     Permutation (known ++ unknown) races) ∧
  (∀ i j ri rj,
     sortByMonth localeCompare races !! i = Some ri →
     sortByMonth localeCompare races !! j = Some rj →
     recognized ri → ¬ recognized rj → (i < j)%nat).
Proof.
  pose proof (sortByMonth_rank_sorted localeCompare races) as Hsorted.
  assert (Permutation (sortByMonth localeCompare races) races) as Hperm
    by apply sort_Permutation.
  split_and!.
  - apply hasRank_monthIndex.
  - intros r Hr. split; [by apply monthIndex_unrecognized|].
    intros r' Hr'. split; [by apply monthIndex_recognized|].
    rewrite (monthIndex_unrecognized r Hr).
    apply monthIndex_recognized in Hr'. unfold MAX_SAFE_INTEGER. lia.
  - done.
  - destruct (rank_sorted_blocks _ Hsorted) as (known & unknown & Heq & ? & ?).
    exists known, unknown. split_and!; try done. by rewrite <-Heq.
  - intros i j ri rj Hi Hj Hrec Hun.
    destruct (Nat.lt_total i j) as [?|[->|Hlt]]; [done|congruence|].
    pose proof (StronglySorted_lookup _ _ _ _ _ _ Hsorted Hlt Hj Hi) as Hle.
    simpl in Hle. rewrite (monthIndex_unrecognized rj Hun) in Hle.
    apply monthIndex_recognized in Hrec. unfold MAX_SAFE_INTEGER in Hle. lia.
Qed.

(** On [mixedBatch]: the six races are all in the result, ["UTMB"] of
    August has rank 7 and stands before ["Beta"] of the unknown month
    ["Smarch"], which has the rank [Number.MAX_SAFE_INTEGER] and came
    before it in the batch. *)
Lemma unknown_months_sort_last_witness :
  hasRank (mkRace "UTMB" "August") 7 ∧
  monthIndex (mkRace "Beta" "Smarch") = MAX_SAFE_INTEGER ∧
  Permutation (sortByMonth codeUnitCompare mixedBatch) mixedBatch ∧
  (∃ known unknown,
     sortByMonth codeUnitCompare mixedBatch = known ++ unknown ∧
     Forall recognized known ∧ Forall (λ r, ¬ recognized r) unknown ∧
     Permutation (known ++ unknown) mixedBatch) ∧
  (3 < 5)%nat.
Proof.
  pose proof (unknown_months_sort_last codeUnitCompare mixedBatch)
    as (Hrank & Hunknown & Hperm & Hblocks & Horder).
  assert (recognized (mkRace "UTMB" "August")) as Hutmb.
  { vm_compute. intuition. }
  assert (¬ recognized (mkRace "Beta" "Smarch")) as Hbeta.
  { vm_compute. intuition discriminate. }
  split_and!.
  - exact (Hrank (mkRace "UTMB" "August")).
  - exact (proj1 (Hunknown _ Hbeta)).
  - exact Hperm.
  - exact Hblocks.
  - exact (Horder 3%nat 5%nat (mkRace "UTMB" "August")
             (mkRace "Beta" "Smarch") eq_refl eq_refl Hutmb Hbeta).
Defined.

(** *** [sortByMonth] on the heap *)

Section HeapFacts.
Variable localeCompare : jsstring → jsstring → Z.

Lemma raceAt_insert_array (h : gmap positive object) (arr l : positive)
    (elements : list positive) :
  h !! arr = None → is_Some (raceAt h l) →
  raceAt (<[arr := ArrayObject elements]> h) l = raceAt h l.
Proof.
  intros Hfresh [r Hr]. unfold raceAt in *.
  destruct (decide (arr = l)) as [->|Hne]; [by rewrite Hfresh in Hr|].
  by rewrite lookup_insert_ne.
Qed.

(** What the call computes: the copy is allocated at a fresh address and
    holds the references of the input array, sorted by the races they refer
    to. *)
Lemma sortByMonthRef_result (h : gmap positive object) (races : positive)
    (elements : list positive) (rs : list race) :
  h !! races = Some (ArrayObject elements) →
  mapM (raceAt h) elements = Some rs →
  sortByMonthRef localeCompare h races =
    Some (<[fresh (dom h) :=
             ArrayObject
               (List.map fst
                  (sort (λ x y : positive * race,
                           compareRaces localeCompare (snd x) (snd y))
                        (zip elements rs)))]> h,
          fresh (dom h)).
Proof.
  intros Harr Hrs. unfold sortByMonthRef, spread. rewrite Harr.
  assert (h !! fresh (dom h) = None) as Hfresh.
  { apply not_elem_of_dom, is_fresh. }
  unfold sortInPlace. rewrite lookup_insert_eq.
  rewrite (Forall_mapM_ext _ (raceAt h)), Hrs.
  - by rewrite insert_insert_eq.
  - assert (Forall (is_Some ∘ raceAt h) elements) as Hall.
    { apply mapM_is_Some_1. by rewrite Hrs. }
    eapply Forall_impl; [exact Hall|]. intros l Hl.
    by apply raceAt_insert_array.
Qed.

(** The races the new array refers to are [sortByMonth] of the races the
    given array refers to: the two views of the call agree. *)
Lemma sortByMonthRef_sortByMonth (h : gmap positive object)
    (races : positive) (elements : list positive) (rs : list race) :
  h !! races = Some (ArrayObject elements) →
  mapM (raceAt h) elements = Some rs →
  ∃ h' out sorted,
    sortByMonthRef localeCompare h races = Some (h', out) ∧
    h' !! out = Some (ArrayObject sorted) ∧
    mapM (raceAt h') sorted = Some (sortByMonth localeCompare rs).
Proof.
  intros Harr Hrs. do 3 eexists.
  split; [by apply sortByMonthRef_result|].
  split; [apply lookup_insert_eq|].
  assert (h !! fresh (dom h) = None) as Hfresh.
  { apply not_elem_of_dom, is_fresh. }
  set (pairs := sort _ (zip elements rs)).
  assert (sortByMonth localeCompare rs = List.map snd pairs) as ->.
  { unfold pairs, sortByMonth.
    rewrite (sort_map (compareRaces localeCompare) snd).
    change (List.map snd (zip elements rs)) with ((zip elements rs).*2).
    rewrite snd_zip; [done|]. apply length_mapM in Hrs. lia. }
  apply mapM_Some_2.
  assert (Forall (λ p, raceAt h p.1 = Some p.2) pairs) as Hpairs.
  { unfold pairs. rewrite sort_Permutation.
    apply mapM_Some_1 in Hrs. clear -Hrs.
    induction Hrs; simpl; constructor; done. }
  assert (∀ l r, raceAt h l = Some r →
            raceAt (<[fresh (dom h) := ArrayObject (List.map fst pairs)]> h) l
            = Some r) as Hframe.
  { intros l r Hl. rewrite raceAt_insert_array; [done|done|by rewrite Hl]. }
  revert Hframe. generalize (<[fresh (dom h) :=
                                ArrayObject (List.map fst pairs)]> h).
  intros h' Hframe.
  induction Hpairs as [|[l r] pairs' Hp _ IH]; simpl; constructor; [|done].
  by apply Hframe.
Qed.

End HeapFacts.

(** C10: [sortByMonth] allocates a new array for its result; the array it
    was given and every race object stay as they were, and the new array
    holds the same references as the given one, each as many times, in some
    order. *)
Theorem sortByMonth_leaves_its_input
    (localeCompare : jsstring → jsstring → Z)
    (h : gmap positive object) (races : positive)
    (elements : list positive) :
  h !! races = Some (ArrayObject elements) →
  Forall (λ l, is_Some (raceAt h l)) elements →
  ∃ h' out sorted,
    sortByMonthRef localeCompare h races = Some (h', out) ∧
    h !! out = None ∧
    h' !! out = Some (ArrayObject sorted) ∧
    Permutation sorted elements ∧
    (∀ l, l ≠ out → h' !! l = h !! l) ∧
    h' !! races = Some (ArrayObject elements) ∧
    Forall (λ l, raceAt h' l = raceAt h l) elements.
Proof.
  intros Harr Hall.
  destruct (mapM_is_Some_2 (raceAt h) elements Hall) as [rs Hrs].
  assert (h !! fresh (dom h) = None) as Hfresh.
  { apply not_elem_of_dom, is_fresh. }
  do 3 eexists.
  split; [by apply sortByMonthRef_result|].
  split_and!.
  - done.
  - apply lookup_insert_eq.
  - etrans; [apply Permutation_map, sort_Permutation|].
    apply length_mapM in Hrs.
    change (List.map fst (zip elements rs)) with ((zip elements rs).*1).
    rewrite fst_zip; [done|lia].
  - intros l Hl. by rewrite lookup_insert_ne.
  - rewrite lookup_insert_ne; [done|]. intros Heq. congruence.
  - eapply Forall_impl; [exact Hall|]. intros l Hl.
    by apply raceAt_insert_array.
Qed.

Lemma sortByMonth_leaves_its_input_witness :
  ∃ h' out sorted,
    sortByMonthRef codeUnitCompare exampleHeap 3%positive = Some (h', out) ∧
    exampleHeap !! out = None ∧
    h' !! out = Some (ArrayObject sorted) ∧
    Permutation sorted [1; 2; 1]%positive ∧
    (∀ l, l ≠ out → h' !! l = exampleHeap !! l) ∧
    h' !! 3%positive = Some (ArrayObject [1; 2; 1]%positive) ∧
    Forall (λ l, raceAt h' l = raceAt exampleHeap l) [1; 2; 1]%positive.
Proof.
  apply (sortByMonth_leaves_its_input codeUnitCompare exampleHeap 3%positive
           [1; 2; 1]%positive); [reflexivity|].
  repeat constructor; vm_compute; eauto.
Defined.

(** ** Further properties of [parseCsvToRaces] *)

Lemma trimStart_suffix (s : jsstring) :
  ∃ w, s = w ++ trimStart s.
Proof.
  induction s as [|c s [w IH]]; simpl; [by exists []|].
  destruct (isWhiteSpace c); [|by exists []].
  exists (c :: w). simpl. by f_equal.
Qed.

Lemma trimStart_head (s : jsstring) (c : N) (r : jsstring) :
  trimStart s = c :: r → isWhiteSpace c = false.
Proof.
  induction s as [|x s IH]; simpl; [done|].
  destruct (isWhiteSpace x) eqn:Hx; [done|]. by intros [= <- _].
Qed.

Lemma trimStart_fixed (s : jsstring) :
  match s with [] => True | c :: _ => isWhiteSpace c = false end →
  trimStart s = s.
Proof. destruct s as [|c s]; simpl; [done|]. by intros ->. Qed.

(** Trimming what is trimmed changes nothing. *)
Lemma trim_idempotent (s : jsstring) : trim (trim s) = trim s.
Proof.
  unfold trim, trimEnd.
  set (u := trimStart s). set (v := trimStart (rev u)).
  assert (trimStart (rev v) = rev v) as Hfix.
  { apply trimStart_fixed.
    destruct (trimStart_suffix (rev u)) as [w Hw]. fold v in Hw.
    apply (f_equal (@rev N)) in Hw. rewrite rev_involutive, rev_app_distr in Hw.
    destruct (rev v) as [|c r] eqn:Hv; [done|].
    apply (trimStart_head s c (r ++ rev w)). exact Hw. }
  rewrite Hfix, rev_involutive.
  assert (trimStart v = v) as Hv; [|by rewrite Hv].
  apply trimStart_fixed. destruct v as [|c r] eqn:Hv; [done|].
  by eapply trimStart_head.
Qed.

Lemma parsed_rows (unicodeLower : jsstring → jsstring) (now : nat → Z)
    (text : jsstring) (rs : list race) :
  parseCsvToRaces unicodeLower now text = Return rs →
  rs = [] ∨
  ∃ m, columnsOf unicodeLower text = Some m ∧
       rs = List.filter (λ race, truthy (name race) && truthy (month race))
              (imap (rowToRace now m)
                    (skipn (startIndex m) (nonBlankLines text))).
Proof.
  rewrite parseCsvToRaces_columns.
  destruct (columnsOf unicodeLower text) as [m|]; [|intros [= <-]; by left].
  destruct (missing (nameIdx m) || missing (monthIdx m)); [done|].
  intros [= <-]. right. by exists m.
Qed.

Lemma rowToRace_trimmed (now : nat → Z) (m : ColumnMapping) (index : nat)
    (line : jsstring) :
  let r := rowToRace now m index line in
  trim (name r) = name r ∧ trim (month r) = month r ∧
  trim (website r) = website r ∧
  registered r = false ∧ finishTime r = [].
Proof.
  unfold rowToRace. simpl. split_and!; try done; try apply trim_idempotent.
  destruct (negb (missing (websiteIdx m))); [|done].
  destruct (cellAt _ _) as [c|]; [|done].
  destruct (truthy c); [apply trim_idempotent|done].
Qed.

(** X1: every race [parseCsvToRaces] returns has its name, month and
    website without white space at either end, is not registered and has
    no finish time. *)
Theorem parsed_races_are_trimmed_and_fresh
    (unicodeLower : jsstring → jsstring) (now : nat → Z)
    (text : jsstring) (rs : list race) :
  parseCsvToRaces unicodeLower now text = Return rs →
  Forall (λ r, trim (name r) = name r ∧ trim (month r) = month r ∧
               trim (website r) = website r ∧
               registered r = false ∧ finishTime r = []) rs.
Proof.
  intros [->|(m & _ & ->)]%parsed_rows; [constructor|].
  apply List.Forall_forall. intros r [Hr _]%filter_In.
  apply list_elem_of_In, elem_of_lookup_imap in Hr as (i & line & -> & _).
  apply rowToRace_trimmed.
Qed.

Lemma parsed_races_are_trimmed_and_fresh_witness :
  Forall (λ r, trim (name r) = name r ∧ trim (month r) = month r ∧
               trim (website r) = website r ∧
               registered r = false ∧ finishTime r = [])
    [ {| id := 1700000000000; name := js "UTMB"; month := js "August";
         website := js "u w"; registered := false; finishTime := [] |} ].
Proof.
  apply (parsed_races_are_trimmed_and_fresh noUnicode frozenClock
           (js ("race,month,url" ++ newline ++ "  UTMB , August ,  u w "))).
  vm_compute. reflexivity.
Defined.

Lemma filter_imap_StronglySorted {A B : Type} (R : B → B → Prop)
    (p : B → bool) (l : list A) (f : nat → A → B) :
  (∀ i j x y, (i < j)%nat → R (f i x) (f j y)) →
  StronglySorted R (List.filter p (imap f l)).
Proof.
  revert f. induction l as [|x l IH]; intros f Hf; simpl; [constructor|].
  assert (StronglySorted R (List.filter p (imap (f ∘ S) l))) as Htail.
  { apply IH. intros i j a b Hij. simpl. apply Hf. lia. }
  destruct (p (f 0%nat x)); [|done].
  constructor; [done|].
  apply List.Forall_forall. intros b [Hb _]%filter_In.
  apply list_elem_of_In, elem_of_lookup_imap in Hb as (i & a & -> & _).
  simpl. apply Hf. lia.
Qed.

(** X2: when the clock does not run backwards during the call, the ids of
    the returned races increase strictly along the list; so no two of them
    are equal. *)
Theorem parsed_ids_increase
    (unicodeLower : jsstring → jsstring) (now : nat → Z)
    (text : jsstring) (rs : list race) :
  monotoneClock now →
  parseCsvToRaces unicodeLower now text = Return rs →
  StronglySorted (λ a b, (id a < id b)%Z) rs ∧
  ∀ i j a b, i ≠ j → rs !! i = Some a → rs !! j = Some b → id a ≠ id b.
Proof.
  intros Hclock Hparse.
  assert (StronglySorted (λ a b, (id a < id b)%Z) rs) as Hsorted.
  { apply parsed_rows in Hparse as [->|(m & _ & ->)]; [constructor|].
    apply filter_imap_StronglySorted. intros i j x y Hij.
    unfold rowToRace. cbn [id].
    assert (now i ≤ now j)%Z by (apply Hclock; lia). lia. }
  split; [done|]. intros i j a b Hij Ha Hb.
  destruct (Nat.lt_total i j) as [Hlt|[?|Hlt]]; [|done|].
  - pose proof (StronglySorted_lookup _ _ _ _ _ _ Hsorted Hlt Ha Hb) as H.
    simpl in H. lia.
  - pose proof (StronglySorted_lookup _ _ _ _ _ _ Hsorted Hlt Hb Ha) as H.
    simpl in H. lia.
Qed.

Lemma frozenClock_monotone : monotoneClock frozenClock.
Proof. by intros i j _. Qed.

Lemma parsed_ids_increase_witness :
  StronglySorted (λ a b, (id a < id b)%Z)
    [ {| id := 1700000000000; name := js "A"; month := js "May";
         website := []; registered := false; finishTime := [] |};
      {| id := 1700000000002; name := js "C"; month := js "May";
         website := []; registered := false; finishTime := [] |} ] ∧
  ∀ i j a b, i ≠ j →
    [ {| id := 1700000000000; name := js "A"; month := js "May";
         website := []; registered := false; finishTime := [] |};
      {| id := 1700000000002; name := js "C"; month := js "May";
         website := []; registered := false; finishTime := [] |} ] !! i
    = Some a →
    [ {| id := 1700000000000; name := js "A"; month := js "May";
         website := []; registered := false; finishTime := [] |};
      {| id := 1700000000002; name := js "C"; month := js "May";
         website := []; registered := false; finishTime := [] |} ] !! j
    = Some b →
    id a ≠ id b.
Proof.
  apply (parsed_ids_increase noUnicode frozenClock
           (js ("race,month" ++ newline ++ "A,May" ++ newline ++ "B," ++
                newline ++ "C,May"))).
  - exact frozenClock_monotone.
  - vm_compute. reflexivity.
Defined.

(** X3: the clock decides the ids and nothing else: two runs on the same
    text throw alike or return races equal in name, month and website, in
    the same order. *)
Theorem parse_depends_on_clock_for_ids_only
    (unicodeLower : jsstring → jsstring) (now now' : nat → Z)
    (text : jsstring) :
  summaries (parseCsvToRaces unicodeLower now text) =
  summaries (parseCsvToRaces unicodeLower now' text).
Proof.
  rewrite !parseCsvToRaces_columns.
  destruct (columnsOf unicodeLower text) as [m|]; [|done].
  destruct (missing (nameIdx m) || missing (monthIdx m)); [done|].
  simpl. f_equal.
  rewrite (filter_imap_map (rowToRace now m) summary _
             (λ line, summary (rowToRace now' m 0 line))
             (λ line, truthy (name (rowToRace now' m 0 line)) &&
                      truthy (month (rowToRace now' m 0 line)))) by done.
  by rewrite (filter_imap_map (rowToRace now' m) summary _
                (λ line, summary (rowToRace now' m 0 line))
                (λ line, truthy (name (rowToRace now' m 0 line)) &&
                         truthy (month (rowToRace now' m 0 line)))).
Qed.

Lemma split_cons_other (sep c : N) (s : jsstring) :
  c ≠ sep →
  split sep (c :: s) =
  match split sep s with
  | [] => [[c]]
  | w :: ws => (c :: w) :: ws
  end.
Proof. intros Hc. simpl. by destruct (N.eqb_spec c sep). Qed.

Lemma removeTrailingCR_cons (c : N) (w : jsstring) :
  c ≠ 13%N → removeTrailingCR (c :: w) = c :: removeTrailingCR w.
Proof.
  intros Hc. destruct w as [|x w]; [|done].
  simpl. by destruct (N.eqb_spec c 13).
Qed.

Lemma lines_toCRLF (text : jsstring) :
  Forall (λ c, c ≠ 13%N) text →
  List.map removeTrailingCR (split 10 (toCRLF text)) =
  List.map removeTrailingCR (split 10 text).
Proof.
  induction 1 as [|c text Hc Hall IH]; [done|].
  unfold toCRLF in *. cbn [flat_map].
  destruct (N.eqb_spec c 10) as [->|Hlf].
  - change (split 10 (10%N :: text)) with ([] :: split 10 text).
    change (split 10 ([13%N; 10%N] ++ flat_map _ text))
      with ([13%N] :: split 10 (flat_map
              (λ c, if (c =? 10)%N then [13%N; 10%N] else [c]) text)).
    simpl. by rewrite IH.
  - cbn [app]. rewrite !split_cons_other by done.
    destruct (split 10 (flat_map _ text)) as [|w ws],
             (split 10 text) as [|w' ws']; try done.
    simpl in IH. injection IH as Hw Hws.
    cbn [List.map]. rewrite !removeTrailingCR_cons by done.
    by rewrite Hw, Hws.
Qed.

(** X4: a text without carriage returns and the same text with a carriage
    return put before every line feed have the same lines, and
    [parseCsvToRaces] gives the same on both. *)
Theorem crlf_line_ends_make_no_difference
    (unicodeLower : jsstring → jsstring) (now : nat → Z) (text : jsstring) :
  Forall (λ c, c ≠ 13%N) text →
  nonBlankLines (toCRLF text) = nonBlankLines text ∧
  parseCsvToRaces unicodeLower now (toCRLF text) =
  parseCsvToRaces unicodeLower now text.
Proof.
  intros Hall.
  assert (nonBlankLines (toCRLF text) = nonBlankLines text) as Hlines.
  { unfold nonBlankLines. by rewrite lines_toCRLF. }
  split; [done|].
  unfold parseCsvToRaces, parseCsvWith. by rewrite Hlines.
Qed.

Lemma crlf_line_ends_make_no_difference_witness :
  nonBlankLines (toCRLF (js ("race,month" ++ newline ++ "UTMB,August" ++
                             newline))) =
  [js "race,month"; js "UTMB,August"] ∧
  parseCsvToRaces noUnicode frozenClock
    (toCRLF (js ("race,month" ++ newline ++ "UTMB,August" ++ newline))) =
  parseCsvToRaces noUnicode frozenClock
    (js ("race,month" ++ newline ++ "UTMB,August" ++ newline)).
Proof.
  apply (crlf_line_ends_make_no_difference noUnicode frozenClock
           (js ("race,month" ++ newline ++ "UTMB,August" ++ newline))).
  apply (bool_decide_unpack
           (Forall (λ c, c ≠ 13%N)
              (js ("race,month" ++ newline ++ "UTMB,August" ++ newline)))).
  vm_compute. exact I.
Defined.

Lemma findColumn_none (synonyms headers : list jsstring) :
  (∀ syn, In syn synonyms → ¬ In syn headers) →
  findColumn synonyms headers = None.
Proof.
  intros Hnone. pose proof (findColumn_firstMatch synonyms headers) as Hm.
  destruct (findColumn synonyms headers) as [i|]; [|done].
  destruct Hm as (k & j & syn & Hk & _ & _ & Hj & _).
  destruct (Hnone syn); apply list_elem_of_In;
    by eapply list_elem_of_lookup_2.
Qed.

(** X5: when some cell of the first line is, once trimmed, non-empty and
    not a number, and no trimmed, lower-cased cell of that line is a name
    synonym, or none is a month synonym, [parseCsvToRaces] throws the schema
    error, whatever the other lines are. *)
Theorem first_line_with_text_but_no_synonym_is_rejected
    (unicodeLower : jsstring → jsstring) (now : nat → Z)
    (text line0 : jsstring) (rest : list jsstring) :
  nonBlankLines text = line0 :: rest →
  Exists (λ c, trim c ≠ [] ∧ ¬ parsesAsNumber (trim c)) (split 44 line0) →
  let headers :=
    List.map (λ h, toLowerCase unicodeLower (trim h)) (split 44 line0) in
  (∀ syn, In syn nameCandidates → ¬ In syn headers) ∨
  (∀ syn, In syn monthCandidates → ¬ In syn headers) →
  parseCsvToRaces unicodeLower now text = Throw (Error schemaMessage).
Proof.
  intros Hlines Hhdr%looksLikeHeader_true headers Hnone.
  rewrite parseCsvToRaces_columns,
    (columnsOf_headered _ _ _ _ Hlines Hhdr).
  cbn [resolveColumns nameIdx monthIdx]. fold headers.
  destruct Hnone as [Hn|Hm].
  - by rewrite (findColumn_none _ _ Hn).
  - rewrite (findColumn_none _ _ Hm). simpl. by rewrite orb_true_r.
Qed.

Lemma first_line_with_text_but_no_synonym_is_rejected_witness :
  parseCsvToRaces noUnicode frozenClock
    (js ("7,Hardrock 100,July,https://x/h" ++ newline ++
         "race,month" ++ newline ++ "UTMB,August"))
  = Throw (Error schemaMessage).
Proof.
  apply (first_line_with_text_but_no_synonym_is_rejected noUnicode
           frozenClock _ (js "7,Hardrock 100,July,https://x/h")
           [js "race,month"; js "UTMB,August"]).
  - reflexivity.
  - change (split 44 (js "7,Hardrock 100,July,https://x/h"))
      with [js "7"; js "Hardrock 100"; js "July"; js "https://x/h"].
    apply Exists_cons_tl, Exists_cons_hd. split; vm_compute; congruence.
  - left. intros syn Hsyn Hin. vm_compute in Hsyn, Hin.
    repeat (destruct Hsyn as [<-|Hsyn];
            [repeat (destruct Hin as [Hin|Hin]; [discriminate Hin|]);
             exact Hin|]).
    exact Hsyn.
Defined.

(** ** Further properties of [sortByMonth] *)

Section MoreSortFacts.
Context {A : Type} (comparator : A → A → Z).

(** A list whose neighbours are in order is left as it is. *)
Lemma sort_fixed (l : list A) :
  Sorted (λ a b, ¬ (0 < comparator a b)%Z) l → sort comparator l = l.
Proof.
  induction 1 as [|x l Hs IH Hhd]; simpl; [done|].
  rewrite IH. destruct Hhd as [|y l Hxy]; simpl; [done|].
  destruct (Z.ltb_spec 0 (comparator x y)); [lia|done].
Qed.

Lemma sort_ext (comparator' : A → A → Z) (l : list A) :
  (∀ a b, comparator a b = comparator' a b) →
  sort comparator l = sort comparator' l.
Proof.
  intros Hext. induction l as [|x l IH]; simpl; [done|].
  rewrite IH. generalize (sort comparator' l). clear IH. intros l'.
  induction l' as [|y l' IH]; simpl; [done|].
  by rewrite Hext, IH.
Qed.

(** A change of the elements the comparator does not see goes through the
    sort. *)
Lemma sort_map_invariant (f : A → A) (l : list A) :
  (∀ a b, comparator (f a) (f b) = comparator a b) →
  sort comparator (List.map f l) = List.map f (sort comparator l).
Proof.
  intros Hinv. rewrite <-(sort_map comparator f l).
  f_equal. symmetry. apply sort_ext. intros a b. by rewrite Hinv.
Qed.

(** Elements that the comparator does not put apart keep their order. *)
Lemma insertSorted_filter (P : A → bool) (x : A) (l : list A) :
  (P x = true → ∀ y, In y l → P y = true → ¬ (0 < comparator x y)%Z) →
  List.filter P (insertSorted comparator x l) = List.filter P (x :: l).
Proof.
  induction l as [|y l IH]; intros Hx; [done|]. cbn [insertSorted].
  destruct (Z.ltb_spec 0 (comparator x y)) as [Hlt|Hge]; [|done].
  cbn [List.filter]. rewrite IH.
  - cbn [List.filter]. destruct (P x) eqn:Px, (P y) eqn:Py; try done.
    destruct (Hx eq_refl y); [by left|done|done].
  - intros Px z Hz. apply Hx; [done|by right].
Qed.

Lemma sort_filter (P : A → bool) (l : list A) :
  (∀ x y, P x = true → P y = true → ¬ (0 < comparator x y)%Z) →
  List.filter P (sort comparator l) = List.filter P l.
Proof.
  intros HP. induction l as [|x l IH]; simpl; [done|].
  rewrite insertSorted_filter by eauto. simpl. by rewrite IH.
Qed.
End MoreSortFacts.

Lemma Sorted_implies {A : Type} (R R' : A → A → Prop) (l : list A) :
  (∀ a b, R a b → R' a b) → Sorted R l → Sorted R' l.
Proof.
  intros HR. induction 1 as [|x l Hs IH Hhd]; constructor; [done|].
  destruct Hhd; constructor. by apply HR.
Qed.

Lemma compareRaces_of_order (localeCompare : jsstring → jsstring → Z)
    (a b : race) :
  (monthIndex a ≤ monthIndex b)%Z ∧
  (monthIndex a = monthIndex b →
   (localeCompare (name a) (name b) ≤ 0)%Z) →
  ¬ (0 < compareRaces localeCompare a b)%Z.
Proof.
  unfold compareRaces. rewrite !orElse_empty.
  destruct (Z.eqb_spec (monthIndex a) (monthIndex b)); simpl; lia.
Qed.

Lemma sortByMonth_fixed (localeCompare : jsstring → jsstring → Z)
    (l : list race) :
  inMonthOrder localeCompare l → sortByMonth localeCompare l = l.
Proof.
  intros Hs. apply sort_fixed. eapply Sorted_implies; [|exact Hs].
  intros a b. apply compareRaces_of_order.
Qed.

Lemma sortByMonth_inMonthOrder (localeCompare : jsstring → jsstring → Z)
    (l : list race) :
  totalCollation localeCompare →
  inMonthOrder localeCompare (sortByMonth localeCompare l).
Proof.
  intros Htotal. apply sort_Sorted.
  - apply compareRaces_not_after.
  - intros x y [Hrank Hname]%compareRaces_after. split; [done|].
    intros Heq. specialize (Hname Heq).
    destruct (Htotal (name x) (name y)); [lia|done].
Qed.

Lemma sortByMonth_Permutation (localeCompare : jsstring → jsstring → Z)
    (l : list race) :
  Permutation (sortByMonth localeCompare l) l.
Proof. apply sort_Permutation. Qed.

(** X6: a list that is already in month order, names in collation order
    within a month, comes back from [sortByMonth] unchanged. *)
Theorem sortByMonth_fixes_ordered_lists
    (localeCompare : jsstring → jsstring → Z) (l : list race) :
  inMonthOrder localeCompare l → sortByMonth localeCompare l = l.
Proof. apply sortByMonth_fixed. Qed.

Lemma sortByMonth_fixes_ordered_lists_witness :
  sortByMonth codeUnitCompare
    [mkRace "B" "March"; mkRace "A" "July"; mkRace "A" "July";
     mkRace "Z" "Juli"; mkRace "Z" ""] =
    [mkRace "B" "March"; mkRace "A" "July"; mkRace "A" "July";
     mkRace "Z" "Juli"; mkRace "Z" ""].
Proof.
  apply (sortByMonth_fixes_ordered_lists codeUnitCompare).
  repeat (constructor; [|try constructor; split; vm_compute; congruence]).
  constructor.
Defined.

(** X7: sorting twice is sorting once. *)
Theorem sortByMonth_idempotent
    (localeCompare : jsstring → jsstring → Z) (l : list race) :
  totalCollation localeCompare →
  sortByMonth localeCompare (sortByMonth localeCompare l) =
  sortByMonth localeCompare l.
Proof.
  intros Htotal. by apply sortByMonth_fixed, sortByMonth_inMonthOrder.
Qed.

Lemma sortByMonth_idempotent_witness :
  sortByMonth codeUnitCompare
    (sortByMonth codeUnitCompare
       [mkRace "UTMB" "August"; mkRace "X" "Smarch"; mkRace "B" "March"]) =
  sortByMonth codeUnitCompare
    [mkRace "UTMB" "August"; mkRace "X" "Smarch"; mkRace "B" "March"].
Proof.
  apply (sortByMonth_idempotent codeUnitCompare). exact codeUnitCompare_total.
Defined.

(** X8: the sort is stable where it matters to the eye: the races of one
    rank and one name stand in the result in the order they had in the
    input. *)
Theorem sortByMonth_keeps_order_of_equal_names
    (localeCompare : jsstring → jsstring → Z) (l : list race)
    (k : Z) (n : jsstring) :
  totalCollation localeCompare →
  List.filter (λ r, bool_decide (monthIndex r = k ∧ name r = n))
    (sortByMonth localeCompare l) =
  List.filter (λ r, bool_decide (monthIndex r = k ∧ name r = n)) l.
Proof.
  intros Htotal. apply sort_filter.
  intros x y [Hx Hnx]%bool_decide_eq_true [Hy Hny]%bool_decide_eq_true.
  apply compareRaces_of_order. split; [lia|]. intros _. rewrite Hnx, Hny.
  by destruct (Htotal n n).
Qed.

Lemma sortByMonth_keeps_order_of_equal_names_witness :
  List.filter (λ r, bool_decide (monthIndex r = 6%Z ∧ name r = js "A"))
    (sortByMonth codeUnitCompare
       [ {| id := 1; name := js "A"; month := js "July"; website := [];
            registered := true; finishTime := [] |};
         mkRace "B" "March";
         {| id := 2; name := js "A"; month := js " July"; website := [];
            registered := false; finishTime := [] |} ]) =
  [ {| id := 1; name := js "A"; month := js "July"; website := [];
       registered := true; finishTime := [] |};
    {| id := 2; name := js "A"; month := js " July"; website := [];
       registered := false; finishTime := [] |} ].
Proof.
  apply (sortByMonth_keeps_order_of_equal_names codeUnitCompare).
  exact codeUnitCompare_total.
Defined.

(** ** The handlers of the component *)

(** X9: toggling a registration or editing a finish time does not
    interfere with the ordering: doing it before [sortByMonth] or after
    gives the same list. *)
Theorem edits_commute_with_sortByMonth
    (localeCompare : jsstring → jsstring → Z) (rid : Z) (value : jsstring)
    (l : list race) :
  sortByMonth localeCompare (toggleRegistered rid l) =
    toggleRegistered rid (sortByMonth localeCompare l) ∧
  sortByMonth localeCompare (finishTimeChange rid value l) =
    finishTimeChange rid value (sortByMonth localeCompare l).
Proof.
  split; apply sort_map_invariant; intros a b;
    destruct (id a =? rid)%Z, (id b =? rid)%Z; reflexivity.
Qed.

(** X10: toggling the same id twice gives the list back, and one toggle
    changes nothing but the [registered] flag of the races with that id:
    it is negated there. *)
Theorem toggleRegistered_twice_and_frame (rid : Z) (l : list race) :
  toggleRegistered rid (toggleRegistered rid l) = l ∧
  List.map (λ r, (id r, name r, month r, website r, finishTime r))
    (toggleRegistered rid l) =
  List.map (λ r, (id r, name r, month r, website r, finishTime r)) l ∧
  List.map registered (toggleRegistered rid l) =
  List.map (λ r, if (id r =? rid)%Z then negb (registered r)
                 else registered r) l.
Proof.
  unfold toggleRegistered. rewrite !map_map. split_and!.
  - rewrite <-(map_id l) at 2. apply map_ext. intros [i n m w g f]. simpl.
    destruct (Z.eqb_spec i rid) as [->|Hne]; simpl.
    + by rewrite Z.eqb_refl, negb_involutive.
    + by destruct (Z.eqb_spec i rid).
  - apply map_ext. intros r. by destruct (id r =? rid)%Z.
  - apply map_ext. intros r. by destruct (id r =? rid)%Z.
Qed.

(** X11: after a finish time is entered for an id, every race with that id
    shows it and the races with other ids are as before; of two entries in
    a row for the same id the second counts. *)
Theorem finishTimeChange_sets_and_overwrites (rid : Z)
    (value value' : jsstring) (l : list race) :
  Forall (λ r, id r = rid → finishTime r = value)
    (finishTimeChange rid value l) ∧
  (∀ i r, l !! i = Some r → id r ≠ rid →
          finishTimeChange rid value l !! i = Some r) ∧
  List.map (λ r, (id r, name r, month r, website r, registered r))
    (finishTimeChange rid value l) =
  List.map (λ r, (id r, name r, month r, website r, registered r)) l ∧
  finishTimeChange rid value' (finishTimeChange rid value l) =
  finishTimeChange rid value' l.
Proof.
  unfold finishTimeChange. split_and!.
  - apply List.Forall_forall. intros r' (r & <- & _)%in_map_iff.
    destruct (Z.eqb_spec (id r) rid); simpl; [done|congruence].
  - intros i r Hr Hne.
    change (List.map ?f l) with (f <$> l). rewrite list_lookup_fmap, Hr.
    simpl. by destruct (Z.eqb_spec (id r) rid).
  - rewrite map_map. apply map_ext. intros r. by destruct (id r =? rid)%Z.
  - rewrite map_map. apply map_ext. intros r.
    destruct (Z.eqb_spec (id r) rid) as [Heq|Hne]; simpl.
    + by rewrite Heq, Z.eqb_refl.
    + by destruct (Z.eqb_spec (id r) rid).
Qed.

Lemma filter_filter_implied {A : Type} (p q : A → bool) (l : list A) :
  (∀ x, p x = true → q x = true) →
  List.filter p (List.filter q l) = List.filter p l.
Proof.
  intros Hpq. induction l as [|x l IH]; simpl; [done|].
  destruct (q x) eqn:Hq; simpl; rewrite IH; [done|].
  destruct (p x) eqn:Hp; [|done]. apply Hpq in Hp. congruence.
Qed.

(** X12: after a delete no race with that id is left, all of them being
    removed if several had it; any selection of races with other ids reads
    the same before and after, order and repetitions included. *)
Theorem deleteRace_removes_exactly_that_id (rid : Z) (l : list race) :
  Forall (λ r, id r ≠ rid) (deleteRace rid l) ∧
  (∀ p : race → bool,
     (∀ r, p r = true → id r ≠ rid) →
     List.filter p (deleteRace rid l) = List.filter p l) ∧
  length (deleteRace rid l) +
    length (List.filter (λ r, (id r =? rid)%Z) l) = length l.
Proof.
  unfold deleteRace. split_and!.
  - apply List.Forall_forall. intros r [_ Hr]%filter_In.
    by destruct (Z.eqb_spec (id r) rid).
  - intros p Hp. apply filter_filter_implied. intros r Hr%Hp.
    by destruct (Z.eqb_spec (id r) rid).
  - induction l as [|r l IH]; simpl; [done|].
    destruct (id r =? rid)%Z; simpl; lia.
Qed.

(** X13: for an id that no race has, toggling, entering a finish time and
    deleting all leave the list as it is. *)
Theorem unknown_id_changes_nothing (rid : Z) (value : jsstring)
    (l : list race) :
  Forall (λ r, id r ≠ rid) l →
  toggleRegistered rid l = l ∧
  finishTimeChange rid value l = l ∧
  deleteRace rid l = l.
Proof.
  unfold toggleRegistered, finishTimeChange, deleteRace.
  induction 1 as [|r l Hr Hall (IH1 & IH2 & IH3)]; simpl; [done|].
  rewrite IH1, IH2, IH3. by destruct (Z.eqb_spec (id r) rid).
Qed.

Lemma unknown_id_changes_nothing_witness :
  toggleRegistered 7 initialRaces = initialRaces ∧
  finishTimeChange 7 (js "30:00:00") initialRaces = initialRaces ∧
  deleteRace 7 initialRaces = initialRaces.
Proof.
  apply (unknown_id_changes_nothing 7 (js "30:00:00") initialRaces).
  repeat constructor; simpl; lia.
Defined.

Lemma codeUnitCompare_transitive : transitiveCollation codeUnitCompare.
Proof.
  intros a. induction a as [|x a IH]; intros [|y b] [|z c]; simpl; try lia.
  destruct (N.ltb_spec x y), (N.ltb_spec y x), (N.ltb_spec y z),
    (N.ltb_spec z y), (N.ltb_spec x z), (N.ltb_spec z x); try lia.
  apply IH.
Qed.

Lemma raceOfForm_wellFormed (t : Z) (s : dashboard) :
  trim (newRaceName s) ≠ [] → trim (newRaceMonth s) ≠ [] →
  wellFormed (raceOfForm t s).
Proof.
  intros Hn Hm. unfold wellFormed, raceOfForm. simpl.
  by rewrite !trim_idempotent.
Qed.

(** X14: [handleAddRace] does nothing at all when the name or the month of
    the form is blank.  Otherwise the new list is the old races and the
    race of the form, in month order, and the form is cleared; the race of
    the form has its text fields trimmed. *)
Theorem handleAddRace_outcome
    (localeCompare : jsstring → jsstring → Z) (t : Z) (s : dashboard) :
  totalCollation localeCompare →
  (trim (newRaceName s) = [] ∨ trim (newRaceMonth s) = [] →
   handleAddRace localeCompare t s = s) ∧
  (trim (newRaceName s) ≠ [] → trim (newRaceMonth s) ≠ [] →
   let s' := handleAddRace localeCompare t s in
   Permutation (races s') (raceOfForm t s :: races s) ∧
   inMonthOrder localeCompare (races s') ∧
   length (races s') = S (length (races s)) ∧
   wellFormed (raceOfForm t s) ∧
   newRaceName s' = [] ∧ newRaceMonth s' = [] ∧ newRaceWebsite s' = [] ∧
   newRaceRegistered s' = false ∧ newRaceFinishTime s' = []).
Proof.
  intros Htotal. unfold handleAddRace. split.
  - intros [->| ->]; simpl; [done|]. by rewrite orb_true_r.
  - intros Hn%truthy_true Hm%truthy_true. rewrite Hn, Hm.
    cbn [negb orb races newRaceName newRaceMonth newRaceWebsite
         newRaceRegistered newRaceFinishTime].
    split_and!; try done.
    + apply sortByMonth_Permutation.
    + by apply sortByMonth_inMonthOrder.
    + by rewrite (Permutation_length (sortByMonth_Permutation _ _)).
    + apply raceOfForm_wellFormed; by apply truthy_true.
Qed.

Lemma handleAddRace_outcome_witness :
  handleAddRace codeUnitCompare 5 formBlankMonth = formBlankMonth ∧
  (let s' := handleAddRace codeUnitCompare 5 formFilled in
   Permutation (races s') (raceOfForm 5 formFilled :: initialRaces) ∧
   inMonthOrder codeUnitCompare (races s') ∧
   length (races s') = 4%nat ∧
   wellFormed (raceOfForm 5 formFilled) ∧
   newRaceName s' = [] ∧ newRaceMonth s' = [] ∧ newRaceWebsite s' = [] ∧
   newRaceRegistered s' = false ∧ newRaceFinishTime s' = []).
Proof.
  split.
  - apply (proj1 (handleAddRace_outcome codeUnitCompare 5 formBlankMonth
                    codeUnitCompare_total)).
    right. reflexivity.
  - apply (proj2 (handleAddRace_outcome codeUnitCompare 5 formFilled
                    codeUnitCompare_total)); vm_compute; congruence.
Defined.

Lemma parsed_wellFormed (unicodeLower : jsstring → jsstring)
    (now : nat → Z) (text : jsstring) (rs : list race) :
  parseCsvToRaces unicodeLower now text = Return rs →
  Forall wellFormed rs.
Proof.
  intros [->|(m & _ & ->)]%parsed_rows; [constructor|].
  apply List.Forall_forall. intros r Hr.
  pose proof (filter_truthy_Forall
                (imap (rowToRace now m)
                   (skipn (startIndex m) (nonBlankLines text)))) as Hne.
  rewrite List.Forall_forall in Hne. destruct (Hne r Hr) as [Hn Hm].
  apply filter_In in Hr as [Hr _].
  apply list_elem_of_In, elem_of_lookup_imap in Hr as (i & line & -> & _).
  destruct (rowToRace_trimmed now m i line) as (? & ? & _).
  by split_and!.
Qed.

Lemma parse_throws_schemaMessage (unicodeLower : jsstring → jsstring)
    (now : nat → Z) (text : jsstring) (e : exception) :
  parseCsvToRaces unicodeLower now text = Throw e → e = Error schemaMessage.
Proof.
  rewrite parseCsvToRaces_columns.
  destruct (columnsOf unicodeLower text) as [m|]; [|done].
  destruct (missing (nameIdx m) || missing (monthIdx m)); [|done].
  by intros [= <-].
Qed.

(** X15: what a loaded file can do to the dashboard.  Either nothing
    changes, or the text parsed into at least one race and the list is
    replaced by those races sorted, without any alert.  An alert, when
    there is one, carries the schema message, never the fallback text, and
    comes with an unchanged dashboard.  A file that parses into no race
    (empty, or a header row alone) changes nothing and alerts nothing. *)
Theorem csvLoaded_outcome
    (localeCompare : jsstring → jsstring → Z)
    (unicodeLower : jsstring → jsstring) (typeErrorMessage : jsstring)
    (now : nat → Z) (result : option jsstring) (s : dashboard) :
  let out :=
    csvLoaded localeCompare unicodeLower typeErrorMessage now result s in
  (out = (s, None) ∨
   out = (s, Some schemaMessage) ∨
   ∃ text parsed,
     result = Some text ∧
     parseCsvToRaces unicodeLower now text = Return parsed ∧
     parsed ≠ [] ∧
     out = (setRaces (sortByMonth localeCompare parsed) s, None)) ∧
  (∀ msg, snd out = Some msg →
          msg = schemaMessage ∧ msg ≠ uploadFallbackMessage ∧ fst out = s) ∧
  (∀ text, result = Some text →
           parseCsvToRaces unicodeLower now text = Return [] →
           out = (s, None)).
Proof.
  unfold csvLoaded. destruct result as [text|]; simpl.
  2:{ split_and!; [by left|done|done]. }
  destruct (parseCsvToRaces unicodeLower now text) as [parsed|e] eqn:Hp.
  - destruct parsed as [|r parsed]; simpl.
    + split_and!; [by left|done|done].
    + split_and!; [|done|].
      * right. right. by exists text, (r :: parsed).
      * intros text' [= <-] Hp'. congruence.
  - pose proof (parse_throws_schemaMessage _ _ _ _ Hp) as ->. simpl.
    split_and!; [by right; left| |].
    + intros msg [= <-]. split_and!; [done| |done].
      vm_compute. congruence.
    + intros text' [= <-] Hp'. congruence.
Qed.

(** X16: when the loaded text parses into at least one race, the list of
    the dashboard becomes those races in month order, whatever it held
    before; every race in it is unregistered, without finish time and has
    a non-empty trimmed name and month; the form is not touched. *)
Theorem csvLoaded_replaces_the_list
    (localeCompare : jsstring → jsstring → Z)
    (unicodeLower : jsstring → jsstring) (typeErrorMessage : jsstring)
    (now : nat → Z) (text : jsstring) (parsed : list race)
    (s : dashboard) :
  totalCollation localeCompare →
  parseCsvToRaces unicodeLower now text = Return parsed →
  parsed ≠ [] →
  let s' :=
    fst (csvLoaded localeCompare unicodeLower typeErrorMessage now
           (Some text) s) in
  races s' = sortByMonth localeCompare parsed ∧
  Permutation (races s') parsed ∧
  inMonthOrder localeCompare (races s') ∧
  Forall (λ r, registered r = false ∧ finishTime r = [] ∧ wellFormed r)
    (races s') ∧
  s' = setRaces (races s') s.
Proof.
  intros Htotal Hp Hne. unfold csvLoaded. rewrite Hp.
  destruct parsed as [|r parsed]; [done|].
  cbn [length Nat.eqb fst setRaces races].
  split_and!; try done.
  - apply sortByMonth_Permutation.
  - by apply sortByMonth_inMonthOrder.
  - eapply Permutation_Forall;
      [symmetry; apply sortByMonth_Permutation|].
    pose proof (parsed_wellFormed _ _ _ _ Hp) as Hwf.
    assert (Forall (λ r, trim (name r) = name r ∧ trim (month r) = month r ∧
                         trim (website r) = website r ∧
                         registered r = false ∧ finishTime r = [])
              (r :: parsed)) as Hfresh.
    { apply parsed_rows in Hp as [?|(m & _ & ->)]; [done|].
      apply List.Forall_forall. intros r' [Hr _]%filter_In.
      apply list_elem_of_In, elem_of_lookup_imap in Hr as (i & line & -> & _).
      apply rowToRace_trimmed. }
    rewrite List.Forall_forall in *. intros r' Hr'.
    destruct (Hfresh r' Hr') as (_ & _ & _ & ? & ?).
    split_and!; auto.
Qed.

Lemma csvLoaded_replaces_the_list_witness :
  let s' :=
    fst (csvLoaded codeUnitCompare noUnicode [] frozenClock
           (Some (js ("race,month" ++ newline ++ "UTMB,August" ++ newline ++
                      "Zion,May")))
           formFilled) in
  races s' =
    sortByMonth codeUnitCompare
      [ {| id := 1700000000000; name := js "UTMB"; month := js "August";
           website := []; registered := false; finishTime := [] |};
        {| id := 1700000000001; name := js "Zion"; month := js "May";
           website := []; registered := false; finishTime := [] |} ] ∧
  Permutation (races s')
    [ {| id := 1700000000000; name := js "UTMB"; month := js "August";
         website := []; registered := false; finishTime := [] |};
      {| id := 1700000000001; name := js "Zion"; month := js "May";
         website := []; registered := false; finishTime := [] |} ] ∧
  inMonthOrder codeUnitCompare (races s') ∧
  Forall (λ r, registered r = false ∧ finishTime r = [] ∧ wellFormed r)
    (races s') ∧
  s' = setRaces (races s') formFilled.
Proof.
  apply (csvLoaded_replaces_the_list codeUnitCompare noUnicode []
           frozenClock
           (js ("race,month" ++ newline ++ "UTMB,August" ++ newline ++
                "Zion,May"))).
  - exact codeUnitCompare_total.
  - vm_compute. reflexivity.
  - discriminate.
Defined.

(** *** What every event keeps *)

Lemma Forall_map_same {A : Type} (P : A → Prop) (f : A → A) (l : list A) :
  (∀ a, P a → P (f a)) → Forall P l → Forall P (List.map f l).
Proof. intros Hf. induction 1; simpl; constructor; auto. Qed.

Lemma Forall_filter_same {A : Type} (P : A → Prop) (p : A → bool)
    (l : list A) :
  Forall P l → Forall P (List.filter p l).
Proof.
  induction 1 as [|x l Hx Hall IH]; simpl; [constructor|].
  destruct (p x); [by constructor|done].
Qed.

Lemma step_wellFormed (localeCompare : jsstring → jsstring → Z)
    (unicodeLower : jsstring → jsstring) (typeErrorMessage : jsstring)
    (s : dashboard) (e : event) :
  Forall wellFormed (races s) →
  Forall wellFormed (races (step localeCompare unicodeLower
                              typeErrorMessage s e)).
Proof.
  intros Hwf. destruct e as [rid|rid value|rid|t|now result| | | | | ];
    try done; cbn [step].
  - apply Forall_map_same; [|done]. intros r Hr.
    by destruct (id r =? rid)%Z.
  - apply Forall_map_same; [|done]. intros r Hr.
    by destruct (id r =? rid)%Z.
  - by apply Forall_filter_same.
  - unfold handleAddRace.
    destruct (truthy (trim (newRaceName s))) eqn:Hn; [|done].
    destruct (truthy (trim (newRaceMonth s))) eqn:Hm; [|done].
    cbn [negb orb races].
    eapply Permutation_Forall; [symmetry; apply sortByMonth_Permutation|].
    constructor; [|done].
    apply raceOfForm_wellFormed; by apply truthy_true.
  - unfold csvLoaded. destruct result as [text|]; [|done].
    destruct (parseCsvToRaces unicodeLower now text) as [parsed|err] eqn:Hp;
      [|done].
    destruct parsed as [|r parsed]; [done|].
    cbn [length Nat.eqb fst setRaces races].
    eapply Permutation_Forall; [symmetry; apply sortByMonth_Permutation|].
    by eapply parsed_wellFormed.
Qed.

(** X17: whatever the user does, starting from the initial dashboard, no
    race of the list ever has an empty name or month, or a name or month
    with white space at either end. *)
Theorem every_race_keeps_a_name_and_a_month
    (localeCompare : jsstring → jsstring → Z)
    (unicodeLower : jsstring → jsstring) (typeErrorMessage : jsstring)
    (events : list event) :
  Forall wellFormed
    (races (run localeCompare unicodeLower typeErrorMessage events
              initialDashboard)).
Proof.
  unfold run.
  assert (Forall wellFormed (races initialDashboard)) as Hinit.
  { repeat constructor; vm_compute; congruence. }
  revert Hinit. generalize initialDashboard.
  induction events as [|e events IH]; intros s Hs; [done|].
  simpl. apply IH. by apply step_wellFormed.
Qed.

Section OrderKept.
Variable localeCompare : jsstring → jsstring → Z.
Hypothesis collation_transitive : transitiveCollation localeCompare.

Lemma monthOrder_transitive (a b c : race) :
  (monthIndex a ≤ monthIndex b)%Z ∧
  (monthIndex a = monthIndex b →
   (localeCompare (name a) (name b) ≤ 0)%Z) →
  (monthIndex b ≤ monthIndex c)%Z ∧
  (monthIndex b = monthIndex c →
   (localeCompare (name b) (name c) ≤ 0)%Z) →
  (monthIndex a ≤ monthIndex c)%Z ∧
  (monthIndex a = monthIndex c →
   (localeCompare (name a) (name c) ≤ 0)%Z).
Proof.
  intros [Hab Hab'] [Hbc Hbc']. split; [lia|]. intros Hac.
  apply (collation_transitive _ (name b)); [apply Hab'|apply Hbc']; lia.
Qed.

Lemma inMonthOrder_filter (p : race → bool) (l : list race) :
  inMonthOrder localeCompare l →
  inMonthOrder localeCompare (List.filter p l).
Proof.
  unfold inMonthOrder. intros Hs.
  apply Sorted_StronglySorted in Hs; [|exact monthOrder_transitive].
  apply StronglySorted_Sorted.
  induction Hs as [|x l Hs IH Hall]; simpl; [constructor|].
  destruct (p x); [|done]. constructor; [done|].
  by apply Forall_filter_same.
Qed.
End OrderKept.

Lemma inMonthOrder_map (localeCompare : jsstring → jsstring → Z)
    (f : race → race) (l : list race) :
  (∀ r, month (f r) = month r ∧ name (f r) = name r) →
  inMonthOrder localeCompare l →
  inMonthOrder localeCompare (List.map f l).
Proof.
  intros Hf. unfold inMonthOrder.
  assert (∀ r, monthIndex (f r) = monthIndex r) as Hrank.
  { intros r. unfold monthIndex. by rewrite (proj1 (Hf r)). }
  induction 1 as [|x l Hs IH Hhd]; simpl; constructor; [done|].
  destruct Hhd as [|y l Hxy]; simpl; constructor.
  by rewrite !Hrank, (proj2 (Hf x)), (proj2 (Hf y)).
Qed.

(** X18: a list in month order stays in month order under every event:
    the handlers that do not sort do not disturb the order, and the two
    that change the races sort. *)
Theorem every_event_keeps_month_order
    (localeCompare : jsstring → jsstring → Z)
    (unicodeLower : jsstring → jsstring) (typeErrorMessage : jsstring)
    (s : dashboard) (e : event) :
  totalCollation localeCompare →
  transitiveCollation localeCompare →
  inMonthOrder localeCompare (races s) →
  inMonthOrder localeCompare
    (races (step localeCompare unicodeLower typeErrorMessage s e)).
Proof.
  intros Htotal Htrans Hs.
  destruct e as [rid|rid value|rid|t|now result| | | | | ];
    try done; cbn [step].
  - apply inMonthOrder_map; [|done]. intros r. by destruct (id r =? rid)%Z.
  - apply inMonthOrder_map; [|done]. intros r. by destruct (id r =? rid)%Z.
  - by apply inMonthOrder_filter.
  - unfold handleAddRace.
    destruct (negb _ || negb _); [done|]. cbn [races].
    by apply sortByMonth_inMonthOrder.
  - unfold csvLoaded. destruct result as [text|]; [|done].
    destruct (parseCsvToRaces unicodeLower now text) as [parsed|err];
      [|done].
    destruct (length parsed =? 0)%nat; [done|]. cbn [fst setRaces races].
    by apply sortByMonth_inMonthOrder.
Qed.

Lemma every_event_keeps_month_order_witness :
  inMonthOrder codeUnitCompare
    (races (step codeUnitCompare noUnicode []
              (setRaces [mkRace "B" "March"; mkRace "A" "July";
                         mkRace "C" "July"; mkRace "Z" "Juli"]
                        initialDashboard)
              (FinishTimeChange 0 (js "24:00:00")))).
Proof.
  apply (every_event_keeps_month_order codeUnitCompare noUnicode []).
  - exact codeUnitCompare_total.
  - exact codeUnitCompare_transitive.
  - repeat (constructor; [|try constructor; split; vm_compute; congruence]).
    constructor.
Defined.

(** The list the dashboard starts with is not in month order: August
    stands before July. *)
Example initialRaces_not_in_month_order :
  ¬ inMonthOrder codeUnitCompare initialRaces.
Proof.
  intros Hs. pose proof (Sorted_adjacent _ _ 1 _ _ Hs eq_refl eq_refl) as [H _].
  vm_compute in H. congruence.
Qed.

(** X19: on a list in month order whose first race has a name, the "next
    race" card shows the name and the month of the first race, and no race
    of the list has a lower rank than it; on the empty list it shows
    "No races yet" and no month. *)
Theorem next_race_is_the_earliest
    (localeCompare : jsstring → jsstring → Z) (s : dashboard) :
  inMonthOrder localeCompare (races s) →
  match races s with
  | [] => nextRaceName s = js "No races yet" ∧ nextRaceMonth s = []
  | r :: _ =>
      (name r ≠ [] → nextRaceName s = name r) ∧
      (name r = [] → nextRaceName s = js "No races yet") ∧
      nextRaceMonth s = month r ∧
      ∀ r', In r' (races s) → (monthIndex r ≤ monthIndex r')%Z
  end.
Proof.
  unfold nextRaceName, nextRaceMonth, inMonthOrder. intros Hs.
  destruct (races s) as [|r l]; [done|]. simpl.
  rewrite orElse_empty. split_and!; try done.
  - by destruct (name r).
  - by intros ->.
  - assert (Sorted (λ a b, (monthIndex a ≤ monthIndex b)%Z) (r :: l)) as Hr.
    { eapply Sorted_implies; [|exact Hs]. by intros a b [? _]. }
    apply Sorted_StronglySorted in Hr; [|intros a b c; lia].
    inversion_clear Hr as [|? ? _ Hall].
    rewrite List.Forall_forall in Hall.
    intros r' [<-|Hr']; [lia|by apply Hall].
Qed.

Lemma next_race_is_the_earliest_witness :
  (name (mkRace "B" "March") ≠ [] →
   nextRaceName (setRaces [mkRace "B" "March"; mkRace "A" "July";
                           mkRace "Z" "Juli"] initialDashboard) = js "B") ∧
  (name (mkRace "B" "March") = [] →
   nextRaceName (setRaces [mkRace "B" "March"; mkRace "A" "July";
                           mkRace "Z" "Juli"] initialDashboard)
   = js "No races yet") ∧
  nextRaceMonth (setRaces [mkRace "B" "March"; mkRace "A" "July";
                           mkRace "Z" "Juli"] initialDashboard)
  = js "March" ∧
  ∀ r', In r' [mkRace "B" "March"; mkRace "A" "July"; mkRace "Z" "Juli"] →
        (monthIndex (mkRace "B" "March") ≤ monthIndex r')%Z.
Proof.
  apply (next_race_is_the_earliest codeUnitCompare
           (setRaces [mkRace "B" "March"; mkRace "A" "July";
                      mkRace "Z" "Juli"] initialDashboard)).
  repeat (constructor; [|try constructor; split; vm_compute; congruence]).
  constructor.
Defined.



(** X21: for a race that [parseCsvToRaces] returned, the table shows the
    website as a link exactly when the website field is not empty: the
    field is trimmed, so the second test of [hasWebsite] adds nothing
    there. *)
Theorem parsed_website_is_shown_when_present
    (unicodeLower : jsstring → jsstring) (now : nat → Z)
    (text : jsstring) (rs : list race) :
  parseCsvToRaces unicodeLower now text = Return rs →
  Forall (λ r, hasWebsite r = true ↔ website r ≠ []) rs.
Proof.
  intros [->|(m & _ & ->)]%parsed_rows; [constructor|].
  apply List.Forall_forall. intros r [Hr _]%filter_In.
  apply list_elem_of_In, elem_of_lookup_imap in Hr as (i & line & -> & _).
  destruct (rowToRace_trimmed now m i line) as (_ & _ & Hw & _).
  unfold hasWebsite. rewrite Hw.
  destruct (website (rowToRace now m i line)); simpl; split; congruence.
Qed.

Lemma parsed_website_is_shown_when_present_witness :
  Forall (λ r, hasWebsite r = true ↔ website r ≠ [])
    [ {| id := 1700000000000; name := js "UTMB"; month := js "August";
         website := js "u"; registered := false; finishTime := [] |};
      {| id := 1700000000001; name := js "Zion"; month := js "May";
         website := []; registered := false; finishTime := [] |} ].
Proof.
  apply (parsed_website_is_shown_when_present noUnicode frozenClock
           (js ("race,month,url" ++ newline ++ "UTMB,August, u " ++
                newline ++ "Zion,May,  "))).
  vm_compute. reflexivity.
Defined.

(** The ids of an upload are the clock reading plus the row number and the
    id of an added race is the clock reading alone, so they can meet: a race
    added one millisecond after a two-row upload gets the id of the second
    row, and deleting either deletes both. *)
Example ids_can_collide :
  let loaded :=
    step codeUnitCompare noUnicode [] initialDashboard
      (CsvLoaded frozenClock
         (Some (js ("race,month" ++ newline ++ "UTMB,August" ++ newline ++
                    "Zion,May")))) in
  let added :=
    run codeUnitCompare noUnicode []
      [SetNewRaceName (js "Hardrock"); SetNewRaceMonth (js "July");
       AddRace 1700000000001] loaded in
  List.map name (races added) = [js "Zion"; js "Hardrock"; js "UTMB"] ∧
  List.map name (races (step codeUnitCompare noUnicode [] added
                          (DeleteRace 1700000000001)))
  = [js "UTMB"].
Proof. vm_compute. split; reflexivity. Qed.
